(** * Q-WeldGuards notebooks: a shallow embedding and its properties

    The repository is a collection of Jupyter notebooks.  Each code cell
    builds a small circuit with PennyLane, runs it on the [default.qubit]
    state-vector simulator and, in the parity notebook, post-processes the
    result with NumPy.

    The embedding follows the notebooks cell by cell.  Floating-point
    numbers are read as exact reals, complex amplitudes as pairs of reals,
    and a state vector on [n] wires as the tensor of shape [(2,)*n] the
    simulator works on.  A call that raises (or, for NumPy divisions by
    zero, yields an [inf]- or [nan]-valued result) is [None].  Rounding is
    left out throughout.  The range of double precision is modelled where
    a cell divides by a norm it computed ([normalize_state]): there a
    result too large for a double is infinite and one too small is
    zero. *)

From Stdlib Require Import Reals Lra Lia List ZArith Bool Psatz RNsatz.
From Stdlib Require String Ascii.
Import ListNotations.
Import Ascii.AsciiSyntax String.StringSyntax.
Delimit Scope char_scope with char.
Delimit Scope string_scope with string.
Local Open Scope R_scope.

(* ================================================================== *)
(** * Part I: definitions                                              *)
(* ================================================================== *)

(** ** Complex numbers *)

Definition C : Type := (R * R)%type.

Definition RtoC (x : R) : C := (x, 0).
Definition C0 : C := (0, 0).
Definition C1 : C := (1, 0).
Definition Cadd (a b : C) : C := (fst a + fst b, snd a + snd b).
Definition Copp (a : C) : C := (- fst a, - snd a).
Definition Cmul (a b : C) : C :=
  (fst a * fst b - snd a * snd b, fst a * snd b + snd a * fst b).
Definition Cconj (a : C) : C := (fst a, - snd a).
(** [abs(z) ** 2] *)
Definition Cnorm2 (a : C) : R := fst a * fst a + snd a * snd a.
(** [exp(1j * t)] *)
Definition Cexp (t : R) : C := (cos t, sin t).
(** a complex number divided by a real one, component by component *)
Definition Cdivr (a : C) (r : R) : C := (fst a / r, snd a / r).

(** ** State tensors

    [St n] is the array of shape [(2,)*n] holding the amplitudes of [n]
    wires: the first axis is wire [0].  Flattening it gives the vector
    [qml.state()] returns, wire [0] being the most significant bit. *)

Fixpoint St (n : nat) : Type :=
  match n with
  | O => C
  | S m => (St m * St m)%type
  end.

Fixpoint vzero (n : nat) : St n :=
  match n with
  | O => C0
  | S m => (vzero m, vzero m)
  end.

Fixpoint vadd {n : nat} : St n -> St n -> St n :=
  match n return St n -> St n -> St n with
  | O => Cadd
  | S m => fun a b => (vadd (fst a) (fst b), vadd (snd a) (snd b))
  end.

Fixpoint vscale {n : nat} (c : C) : St n -> St n :=
  match n return St n -> St n with
  | O => Cmul c
  | S m => fun a => (vscale c (fst a), vscale c (snd a))
  end.

(** squared Euclidean norm of a state tensor *)
Fixpoint nrm2 {n : nat} : St n -> R :=
  match n return St n -> R with
  | O => Cnorm2
  | S m => fun a => nrm2 (fst a) + nrm2 (snd a)
  end.

(** the all-zero basis state every device starts from *)
Fixpoint ket0 (n : nat) : St n :=
  match n with
  | O => C1
  | S m => (ket0 m, vzero m)
  end.

(** the computational basis state of a bit string, first bit on wire 0;
    bits beyond the tensor's rank are ignored, missing bits read as 0 *)
Fixpoint ket (n : nat) (bits : list bool) : St n :=
  match n with
  | O => C1
  | S m =>
      match bits with
      | true :: tl => (vzero m, ket m tl)
      | false :: tl => (ket m tl, vzero m)
      | [] => (ket m [], vzero m)
      end
  end.

(** the flat amplitude vector, as [qml.state()] lays it out *)
Fixpoint amplitudes {n : nat} : St n -> list C :=
  match n return St n -> list C with
  | O => fun a => [a]
  | S m => fun a => amplitudes (fst a) ++ amplitudes (snd a)
  end.

(** ** Gates *)

Record Mat2 : Type := mk2 { m00 : C; m01 : C; m10 : C; m11 : C }.

Definition lin2 {n : nat} (x y : C) (a b : St n) : St n :=
  vadd (vscale x a) (vscale y b).

(** a one-wire gate contracted with axis [k] of the tensor *)
Fixpoint apply1 {n : nat} (U : Mat2) (k : nat) : St n -> St n :=
  match n return St n -> St n with
  | O => fun s => s
  | S m => fun s =>
      match k with
      | O => (lin2 (m00 U) (m01 U) (fst s) (snd s),
              lin2 (m10 U) (m11 U) (fst s) (snd s))
      | S k' => (apply1 U k' (fst s), apply1 U k' (snd s))
      end
  end.

(** [sel c s t]: the slice of [s] where wire [c] reads 0 together with the
    slice of [t] where wire [c] reads 1 *)
Fixpoint sel {n : nat} (c : nat) : St n -> St n -> St n :=
  match n return St n -> St n -> St n with
  | O => fun s _ => s
  | S m => fun s t =>
      match c with
      | O => (fst s, snd t)
      | S c' => (sel c' (fst s) (fst t), sel c' (snd s) (snd t))
      end
  end.

(** a controlled one-wire gate: the target is transformed only in the
    slice where the control wire reads 1 *)
Definition ctrl {n : nat} (U : Mat2) (c t : nat) (s : St n) : St n :=
  sel c s (apply1 U t s).

Definition X_mat : Mat2 := mk2 C0 C1 C1 C0.
Definition H_mat : Mat2 :=
  mk2 (RtoC (/ sqrt 2)) (RtoC (/ sqrt 2)) (RtoC (/ sqrt 2)) (RtoC (- / sqrt 2)).
Definition RX_mat (theta : R) : Mat2 :=
  mk2 (RtoC (cos (theta / 2))) (0, - sin (theta / 2))
      (0, - sin (theta / 2)) (RtoC (cos (theta / 2))).
Definition RY_mat (theta : R) : Mat2 :=
  mk2 (RtoC (cos (theta / 2))) (RtoC (- sin (theta / 2)))
      (RtoC (sin (theta / 2))) (RtoC (cos (theta / 2))).
Definition RZ_mat (theta : R) : Mat2 :=
  mk2 (Cexp (- theta / 2)) C0 C0 (Cexp (theta / 2)).
(** [Rot(phi, theta, omega) = RZ(omega) RY(theta) RZ(phi)] *)
Definition Rot_mat (phi theta omega : R) : Mat2 :=
  mk2 (Cmul (Cexp (- (phi + omega) / 2)) (RtoC (cos (theta / 2))))
      (Copp (Cmul (Cexp ((phi - omega) / 2)) (RtoC (sin (theta / 2)))))
      (Cmul (Cexp (- (phi - omega) / 2)) (RtoC (sin (theta / 2))))
      (Cmul (Cexp ((phi + omega) / 2)) (RtoC (cos (theta / 2)))).

(** the columns of a gate matrix are orthonormal *)
Definition unitary2 (U : Mat2) : Prop :=
  Cnorm2 (m00 U) + Cnorm2 (m10 U) = 1 /\
  Cnorm2 (m01 U) + Cnorm2 (m11 U) = 1 /\
  Cadd (Cmul (Cconj (m00 U)) (m01 U)) (Cmul (Cconj (m10 U)) (m11 U)) = C0.

(** ** Operations, tapes and devices *)

Inductive Op : Type :=
| BasisState (x : list Z) (wires : list nat)
| PauliX (w : nat)
| Hadamard (w : nat)
| RX (theta : R) (w : nat)
| RY (theta : R) (w : nat)
| RZ (theta : R) (w : nat)
| Rot (phi theta omega : R) (w : nat)
| CNOT (c t : nat)
| CRX (theta : R) (c t : nat)
| CRY (theta : R) (c t : nat)
| CRZ (theta : R) (c t : nat).

(** what a quantum function returns: [qml.probs()], [qml.state()] or
    [qml.expval(qml.PauliZ(w))], indexed by the type of the result *)
Inductive Meas : Type -> Type :=
| probs : Meas (list R)
| state : Meas (list C)
| expval_PauliZ (w : nat) : Meas R.

(** A quantum function runs inside a queuing context: every operation it
    instantiates is appended to the tape being recorded. *)
Definition Tape (A : Type) : Type := list Op -> option (A * list Op).

Definition ret {A : Type} (a : A) : Tape A := fun q => Some (a, q).
Definition bind {A B : Type} (m : Tape A) (f : A -> Tape B) : Tape B :=
  fun q => match m q with
           | Some (a, q') => f a q'
           | None => None
           end.
Definition raise {A : Type} : Tape A := fun _ => None.
Definition queue (o : Op) : Tape unit := fun q => Some (tt, q ++ [o]).

Declare Scope tape_scope.
Delimit Scope tape_scope with tape.
Notation "x <- m ;; k" := (bind m (fun x => k))
  (at level 61, m at next level, right associativity) : tape_scope.
Notation "m ;; k" := (bind m (fun _ => k))
  (at level 61, right associativity) : tape_scope.
Local Open Scope tape_scope.

(** a Python [for] loop whose body only queues operations *)
Fixpoint for_each {A : Type} (l : list A) (body : A -> Tape unit) : Tape unit :=
  match l with
  | [] => ret tt
  | a :: l' => body a ;; for_each l' body
  end.

(** [PauliX] on every wire whose bit is 1 *)
Fixpoint flip_bits {n : nat} (x : list Z) (wires : list nat) (s : St n) : St n :=
  match x, wires with
  | b :: x', w :: wires' =>
      flip_bits x' wires' (if Z.eqb b 1 then apply1 X_mat w s else s)
  | _, _ => s
  end.

Definition is_bit (b : Z) : bool := Z.eqb b 0 || Z.eqb b 1.

Fixpoint distinct (l : list nat) : bool :=
  match l with
  | [] => true
  | a :: l' => negb (existsb (Nat.eqb a) l') && distinct l'
  end.

(** the wires an operation names lie on the device and are distinct; a
    basis state has one bit, 0 or 1, per wire *)
Definition valid_on (n : nat) (o : Op) : bool :=
  match o with
  | BasisState x wires =>
      (length x =? length wires)%nat && forallb is_bit x
      && forallb (fun w => w <? n) wires && distinct wires
  | PauliX w | Hadamard w | RX _ w | RY _ w | RZ _ w | Rot _ _ _ w => w <? n
  | CNOT c t | CRX _ c t | CRY _ c t | CRZ _ c t =>
      (c <? n) && (t <? n) && negb (c =? t)
  end.

(** the linear map of an operation on the state tensor *)
Definition action {n : nat} (o : Op) (s : St n) : St n :=
  match o with
  | BasisState x wires => flip_bits x wires s
  | PauliX w => apply1 X_mat w s
  | Hadamard w => apply1 H_mat w s
  | RX theta w => apply1 (RX_mat theta) w s
  | RY theta w => apply1 (RY_mat theta) w s
  | RZ theta w => apply1 (RZ_mat theta) w s
  | Rot phi theta omega w => apply1 (Rot_mat phi theta omega) w s
  | CNOT c t => ctrl X_mat c t s
  | CRX theta c t => ctrl (RX_mat theta) c t s
  | CRY theta c t => ctrl (RY_mat theta) c t s
  | CRZ theta c t => ctrl (RZ_mat theta) c t s
  end.

(** one operation applied by the simulator; an invalid one raises *)
Definition apply_op {n : nat} (o : Op) (s : St n) : option (St n) :=
  if valid_on n o then Some (action o s) else None.

(** the tape executed from a given state, first operation first *)
Fixpoint execute_from {n : nat} (ops : list Op) (s : St n) : option (St n) :=
  match ops with
  | [] => Some s
  | o :: ops' =>
      match apply_op o s with
      | Some s' => execute_from ops' s'
      | None => None
      end
  end.

Definition execute (n : nat) (ops : list Op) : option (St n) :=
  execute_from ops (ket0 n).

(** expectation value of [PauliZ] on wire [w] *)
Fixpoint expvalZ {n : nat} (w : nat) : St n -> R :=
  match n return St n -> R with
  | O => fun _ => 0
  | S m => fun s =>
      match w with
      | O => nrm2 (fst s) - nrm2 (snd s)
      | S w' => expvalZ w' (fst s) + expvalZ w' (snd s)
      end
  end.

Definition measure {n : nat} {A : Type} (m : Meas A) : St n -> option A :=
  match m in Meas T return St n -> option T with
  | probs => fun s => Some (map Cnorm2 (amplitudes s))
  | state => fun s => Some (amplitudes s)
  | expval_PauliZ w => fun s => if w <? n then Some (expvalZ w s) else None
  end.

(** [qml.qnode(dev)]: record the tape of the quantum function, execute it
    on a device of [n] wires, evaluate the measurement it returned *)
Definition tape_of {A : Type} (qfunc : Tape A) : option (A * list Op) := qfunc [].

Definition qnode (n : nat) {A : Type} (qfunc : Tape (Meas A)) : option A :=
  match tape_of qfunc with
  | Some (m, ops) =>
      match execute n ops with
      | Some s => measure m s
      | None => None
      end
  | None => None
  end.

(** ** Operations beyond the basic set

    [qml.S], [qml.MultiControlledX] with its control values, and the
    operations [qml.adjoint] wraps. *)

Definition I_mat : Mat2 := mk2 C1 C0 C0 C1.
Definition Y_mat : Mat2 := mk2 C0 (0, -1) (0, 1) C0.
Definition Z_mat : Mat2 := mk2 C1 C0 C0 (Copp C1).
Definition S_mat : Mat2 := mk2 C1 C0 C0 (0, 1).

(** the conjugate transpose *)
Definition dagger (U : Mat2) : Mat2 :=
  mk2 (Cconj (m00 U)) (Cconj (m10 U)) (Cconj (m01 U)) (Cconj (m11 U)).

Inductive XOp : Type :=
| Gate (o : Op)
| S_gate (w : nat)
| MultiControlledX (control_wires : list nat) (wires : nat)
                   (control_values : list Z)
| Adjoint (o : XOp).

(** [f] applied in the slice where every control wire reads its value *)
Fixpoint ctrl_on {n : nat} (controls : list (nat * Z)) (f : St n -> St n)
    (s : St n) : St n :=
  match controls with
  | [] => f s
  | (c, v) :: rest =>
      if Z.eqb v 1 then sel c s (ctrl_on rest f s)
      else sel c (ctrl_on rest f s) s
  end.

(** a unitary operation as controls, matrix and target wire; a state
    preparation is none *)
Fixpoint unitary_of (x : XOp) : option (list (nat * Z) * Mat2 * nat) :=
  match x with
  | Gate (BasisState _ _) => None
  | Gate (PauliX w) => Some ([], X_mat, w)
  | Gate (Hadamard w) => Some ([], H_mat, w)
  | Gate (RX theta w) => Some ([], RX_mat theta, w)
  | Gate (RY theta w) => Some ([], RY_mat theta, w)
  | Gate (RZ theta w) => Some ([], RZ_mat theta, w)
  | Gate (Rot phi theta omega w) => Some ([], Rot_mat phi theta omega, w)
  | Gate (CNOT c t) => Some ([(c, 1%Z)], X_mat, t)
  | Gate (CRX theta c t) => Some ([(c, 1%Z)], RX_mat theta, t)
  | Gate (CRY theta c t) => Some ([(c, 1%Z)], RY_mat theta, t)
  | Gate (CRZ theta c t) => Some ([(c, 1%Z)], RZ_mat theta, t)
  | S_gate w => Some ([], S_mat, w)
  | MultiControlledX control_wires w control_values =>
      Some (combine control_wires control_values, X_mat, w)
  | Adjoint y =>
      match unitary_of y with
      | Some (controls, U, w) => Some (controls, dagger U, w)
      | None => None
      end
  end.

Fixpoint values_match (x : XOp) : bool :=
  match x with
  | MultiControlledX control_wires _ control_values =>
      (length control_wires =? length control_values)%nat
  | Adjoint y => values_match y
  | _ => true
  end.

Definition xvalid (n : nat) (x : XOp) : bool :=
  match x with
  | Gate o => valid_on n o
  | _ =>
      match unitary_of x with
      | Some (controls, _, w) =>
          values_match x
          && forallb (fun cv => is_bit (snd cv)) controls
          && forallb (fun v => v <? n) (w :: map fst controls)
          && distinct (w :: map fst controls)
      | None => false
      end
  end.

Definition xaction {n : nat} (x : XOp) (s : St n) : St n :=
  match x with
  | Gate o => action o s
  | _ =>
      match unitary_of x with
      | Some (controls, U, w) => ctrl_on controls (apply1 U w) s
      | None => s
      end
  end.

Definition XTape (A : Type) : Type := list XOp -> option (A * list XOp).

Definition xret {A : Type} (a : A) : XTape A := fun q => Some (a, q).
Definition xbind {A B : Type} (m : XTape A) (f : A -> XTape B) : XTape B :=
  fun q => match m q with
           | Some (a, q') => f a q'
           | None => None
           end.
Definition xraise {A : Type} : XTape A := fun _ => None.
Definition xqueue (x : XOp) : XTape unit := fun q => Some (tt, q ++ [x]).

Declare Scope xtape_scope.
Delimit Scope xtape_scope with xtape.
Notation "x <- m ;; k" := (xbind m (fun x => k))
  (at level 61, m at next level, right associativity) : xtape_scope.
Notation "m ;; k" := (xbind m (fun _ => k))
  (at level 61, right associativity) : xtape_scope.

(** [l[i]] inside a quantum function *)
Definition xindex {A : Type} (l : list A) (i : nat) : XTape A :=
  match nth_error l i with
  | Some v => xret v
  | None => xraise
  end.

(** [qml.adjoint(fn)()]: what [fn] queues is recorded apart, then queued
    in reverse order, each operation wrapped in [Adjoint] *)
Definition adjoint (fn : XTape unit) : XTape unit :=
  fun q => match fn [] with
           | Some (_, ops) => Some (tt, q ++ map Adjoint (rev ops))
           | None => None
           end.

Fixpoint xexecute_from {n : nat} (ops : list XOp) (s : St n) : option (St n) :=
  match ops with
  | [] => Some s
  | x :: ops' =>
      if xvalid n x then xexecute_from ops' (xaction x s) else None
  end.

Definition xqnode (n : nat) {A : Type} (qfunc : XTape (Meas A)) : option A :=
  match qfunc [] with
  | Some (m, ops) =>
      match xexecute_from ops (ket0 n) with
      | Some s => measure m s
      | None => None
      end
  | None => None
  end.

(** [qml.state()], under a name that a parameter called [state] does
    not hide *)
Definition state_vector : Meas (list C) := state.

(** ** [np.binary_repr]

    For a non-negative number: its binary digits, most significant
    first, padded with zeros on the left up to [width]; a number that
    needs more digits keeps them all. *)

Fixpoint pos_repr (p : positive) (acc : String.string) : String.string :=
  match p with
  | xH => String.String "1"%char acc
  | xO q => pos_repr q (String.String "0"%char acc)
  | xI q => pos_repr q (String.String "1"%char acc)
  end.

Fixpoint zeros (k : nat) (acc : String.string) : String.string :=
  match k with
  | O => acc
  | S k' => String.String "0"%char (zeros k' acc)
  end.

Definition binary_repr (num : N) (width : nat) : String.string :=
  let digits := match num with
                | N0 => "0"%string
                | Npos p => pos_repr p String.EmptyString
                end in
  zeros (width - String.length digits) digits.

(** [[int(x) for x in text]] on a string of binary digits *)
Definition int_of_digit (ch : Ascii.ascii) : Z :=
  if Ascii.eqb ch "1"%char then 1%Z else 0%Z.

Definition ints_of (text : String.string) : list Z :=
  map int_of_digit (String.list_ascii_of_string text).

(** ** NumPy's global random generator

    The notebooks draw from [np.random]; only its interface is used.
    [random] is [np.random.random()], a float in [[0, 1)]; [randint lo hi]
    is one entry of [np.random.randint(lo, hi, ...)], which raises when
    the range is empty.  Both return the advanced generator. *)

Class RandomState (G : Type) : Type := {
  random : G -> R * G;
  randint : nat -> nat -> G -> option (nat * G)
}.

(** [size] entries drawn one after the other *)
Fixpoint randint_array {G : Type} `{RandomState G}
    (lo hi size : nat) (g : G) : option (list nat * G) :=
  match size with
  | O => Some ([], g)
  | S k =>
      match randint lo hi g with
      | Some (i, g1) =>
          match randint_array lo hi k g1 with
          | Some (rest, g2) => Some (i :: rest, g2)
          | None => None
          end
      | None => None
      end
  end.

(** a generator that replays a fixed sequence of raw outputs *)
Definition replay : Type := nat -> nat.

Definition advance (g : replay) : replay := fun i => g (S i).

Definition replay_random (g : replay) : R * replay :=
  (INR (g O mod 100) / 100, advance g).

Definition replay_randint (lo hi : nat) (g : replay) : option (nat * replay) :=
  if lo <? hi then Some ((lo + g O mod (hi - lo))%nat, advance g) else None.

#[global] Instance replay_RandomState : RandomState replay := {
  random := replay_random;
  randint := replay_randint
}.

(** ** The range of double precision

    Rounding apart, a double holds a real as it is while its magnitude
    lies between [min_normal] and [overflow_threshold].  At or beyond
    [overflow_threshold] the stored value is an infinity.  Below
    [min_normal] it is the nearest multiple of [min_subnormal], which is
    zero for a magnitude under half of [min_subnormal]. *)

Definition min_normal : R := / 2 ^ 1022.

Definition min_subnormal : R := / 2 ^ 1074.

(** the largest double is (2 - 2^-52) * 2^1023; from half a unit in the
    last place above it, rounding gives an infinity *)
Definition overflow_threshold : R := (2 - / 2 ^ 53) * 2 ^ 1023.

(** the integer nearest to [y], a tie going to the even one *)
Definition nearest_even (y : R) : Z :=
  let f := (up y - 1)%Z in
  let r := y - IZR f in
  if Rlt_dec r (1 / 2) then f
  else if Rlt_dec (1 / 2) r then (f + 1)%Z
  else if Z.even f then f else (f + 1)%Z.

(** the double that stores a real result; [None] is an infinity *)
Definition fl (x : R) : option R :=
  if Rle_dec overflow_threshold (Rabs x) then None
  else if Rlt_dec (Rabs x) min_normal
       then Some (IZR (nearest_even (x / min_subnormal)) * min_subnormal)
       else Some x.

(** [x.dot(x)] for a real array: the squares, added entry after entry;
    [None] is [inf] *)
Definition sq_sum (xs : list R) : option R :=
  fold_left (fun acc x =>
               match acc, fl (x * x) with
               | Some a, Some s => fl (a + s)
               | _, _ => None
               end)
            xs (Some 0).

(** an array with all its entries finite *)
Fixpoint finite_array {A : Type} (l : list (option A)) : option (list A) :=
  match l with
  | [] => Some []
  | Some a :: l' => option_map (cons a) (finite_array l')
  | None :: _ => None
  end.

(** ** Introduction to Quantum Computing / All_About_Qubits.ipynb *)

Module AllAboutQubits.

(** the Euclidean norm of a complex vector *)
Definition norm (psi : list C) : R :=
  sqrt (fold_right Rplus 0 (map Cnorm2 psi)).

(** [np.linalg.norm] of a one-dimensional complex array, as NumPy
    computes it on doubles:
    [sqrt(x.real.dot(x.real) + x.imag.dot(x.imag))]; [None] is [inf] *)
Definition linalg_norm (psi : list C) : option R :=
  match sq_sum (map fst psi), sq_sum (map snd psi) with
  | Some re, Some im => option_map sqrt (fl (re + im))
  | _, _ => None
  end.

(** one entry of [psi / norm].  A finite number over [inf] is zero; over
    a zero norm NumPy warns and gives [inf] or [nan], and so it does when
    a quotient overflows: the entry is then not a finite number
    ([None]). *)
Definition divide (z : C) (norm : option R) : option C :=
  match norm with
  | None => Some C0
  | Some n =>
      if Req_dec_T n 0 then None
      else match fl (fst z / n), fl (snd z / n) with
           | Some re, Some im => Some (re, im)
           | _, _ => None
           end
  end.

(** Codercise I.1.1.  Nothing guards the division [psi / norm]. *)
Definition normalize_state (alpha beta : C) : option (list C) :=
  let psi := [alpha; beta] in
  let norm := linalg_norm psi in
  finite_array (map (fun z => divide z norm) psi).

(** the loop of Codercise I.1.3 (and the sampling inside
    [np.random.choice]): one draw per outcome, in order *)
Fixpoint draw_outcomes {G : Type} `{RandomState G}
    (prob_0 : R) (k : nat) (g : G) : list Z * G :=
  match k with
  | O => ([], g)
  | S k' =>
      let (x, g1) := random g in
      let (rest, g2) := draw_outcomes prob_0 k' g1 in
      ((if Rlt_dec x prob_0 then 0%Z else 1%Z) :: rest, g2)
  end.

Module Codercise_I_1_2.

(** the loop adds one term per index of [state_1]; [state_2[i]] raises
    when [state_2] is the shorter *)
Fixpoint inner_product_loop (innerProduct : C) (state_1 state_2 : list C)
  : option C :=
  match state_1 with
  | [] => Some innerProduct
  | a :: state_1' =>
      match state_2 with
      | [] => None
      | b :: state_2' =>
          inner_product_loop (Cadd innerProduct (Cmul (Cconj a) b))
                             state_1' state_2'
      end
  end.

Definition inner_product (state_1 state_2 : list C) : option C :=
  inner_product_loop C0 state_1 state_2.

End Codercise_I_1_2.

Module Codercise_I_1_3.

(** [state[0]] raises on an empty state *)
Definition measure_state {G : Type} `{RandomState G}
    (state : list C) (num_meas : nat) (g : G) : option (list Z * G) :=
  match state with
  | [] => None
  | a :: _ =>
      let prob_0 := (sqrt (Cnorm2 a)) ^ 2 in
      Some (draw_outcomes prob_0 num_meas g)
  end.

End Codercise_I_1_3.

Module Codercise_I_1_5.

Definition U : Mat2 :=
  mk2 (Cdivr C1 (sqrt 2)) (Cdivr C1 (sqrt 2))
      (Cdivr C1 (sqrt 2)) (Cdivr (Copp C1) (sqrt 2)).


Definition apply_u (state : list C) : option (list C) :=
  match state with
  | [a; b] => Some [Cadd (Cmul (m00 U) a) (Cmul (m01 U) b);
                    Cadd (Cmul (m10 U) a) (Cmul (m11 U) b)]
  | _ => None
  end.

(** [np.random.choice([0, 1], p=[p0, p1], size=size)]: a negative weight
    raises, and so do weights whose sum is further than [sqrt(eps)] from
    one, [eps] being 2^-52; each entry is then found by looking its
    uniform draw up in the cumulative sums divided by their last, so it
    is 0 when the draw falls below [p0 / (p0 + p1)] *)
Definition choice01 {G : Type} `{RandomState G}
    (p0 p1 : R) (size : nat) (g : G) : option (list Z * G) :=
  if Rlt_dec p0 0 then None
  else if Rlt_dec p1 0 then None
  else if Rlt_dec (sqrt (/ 2 ^ 52)) (Rabs (p0 + p1 - 1)) then None
  else Some (draw_outcomes (p0 / (p0 + p1)) size g).

Definition measure_state {G : Type} `{RandomState G}
    (state : list C) (num_meas : nat) (g : G) : option (list Z * G) :=
  match state with
  | a :: b :: _ =>
      let p_alpha := (sqrt (Cnorm2 a)) ^ 2 in
      let p_beta := (sqrt (Cnorm2 b)) ^ 2 in
      choice01 p_alpha p_beta num_meas g
  | _ => None
  end.


End Codercise_I_1_5.

End AllAboutQubits.

(** ** Introduction to Quantum Computing / Quantum_Circuits.ipynb *)

Module QuantumCircuits.

(** Codercise I.2.3, on [qml.device("default.qubit", wires=3)];
    [qml.probs(wires=[0, 1, 2])] lists all three wires in order *)
Definition my_circuit_qfunc (theta phi omega : R) : Tape (Meas (list R)) :=
  queue (RX theta 0) ;;
  queue (RY phi 1) ;;
  queue (RZ omega 2) ;;
  queue (CNOT 0 1) ;;
  queue (CNOT 1 2) ;;
  queue (CNOT 2 0) ;;
  ret probs.

Definition my_circuit (theta phi omega : R) : option (list R) :=
  qnode 3 (my_circuit_qfunc theta phi omega).

End QuantumCircuits.

(** ** Circuits With Many Qubits / All_Ties_Up.ipynb *)

Module AllTiedUp.

(** Codercise 1.12.3, on three wires *)
Definition controlled_rotations_qfunc (theta phi omega : R)
  : Tape (Meas (list R)) :=
  queue (Hadamard 0) ;;
  queue (CRX theta 0 1) ;;
  queue (CRY phi 1 2) ;;
  queue (CRZ omega 2 0) ;;
  ret probs.

Definition controlled_rotations (theta phi omega : R) : option (list R) :=
  qnode 3 (controlled_rotations_qfunc theta phi omega).

(** Codercise 1.12.1, on two wires; [qml.BasisStatePreparation] flips
    the wires whose bit is 1, as [BasisState] does *)
Definition num_wires : nat := 2.

Definition apply_cnot_qfunc (basis_id : N) : Tape (Meas (list C)) :=
  let bits := ints_of (binary_repr basis_id num_wires) in
  queue (BasisState bits [0; 1]%nat) ;;
  queue (CNOT 0 1) ;;
  ret state.

Definition apply_cnot (basis_id : N) : option (list C) :=
  qnode 2 (apply_cnot_qfunc basis_id).

Definition cnot_truth_table : list (String.string * String.string) :=
  [("00", "00"); ("01", "01"); ("10", "11"); ("11", "10")]%string.

(** Codercise 1.12.2 *)
Definition apply_h_cnot_qfunc : Tape (Meas (list C)) :=
  queue (Hadamard 0) ;;
  queue (CNOT 0 1) ;;
  ret state.

Definition apply_h_cnot : option (list C) := qnode 2 apply_h_cnot_qfunc.

Definition state_status : String.string := "entangled"%string.

End AllTiedUp.

(** ** Circuits With Many Qubits / Multi-Qubit_Gate_Challenge.ipynb *)

Module MultiQubitGateChallenge.

(** Codercise 1.14.1, on two wires *)
Definition prepare_psi_plus_qfunc : Tape (Meas (list C)) :=
  queue (Hadamard 0) ;;
  queue (CNOT 0 1) ;;
  ret state.

Definition prepare_psi_minus_qfunc : Tape (Meas (list C)) :=
  queue (PauliX 0) ;;
  queue (Hadamard 0) ;;
  queue (CNOT 0 1) ;;
  ret state.

Definition prepare_phi_plus_qfunc : Tape (Meas (list C)) :=
  queue (Hadamard 1) ;;
  queue (PauliX 0) ;;
  queue (CNOT 1 0) ;;
  ret state.

Definition prepare_phi_minus_qfunc : Tape (Meas (list C)) :=
  queue (PauliX 1) ;;
  queue (Hadamard 1) ;;
  queue (PauliX 0) ;;
  queue (PauliX 1) ;;
  queue (CNOT 1 0) ;;
  ret state.

Definition prepare_psi_plus : option (list C) := qnode 2 prepare_psi_plus_qfunc.
Definition prepare_psi_minus : option (list C) := qnode 2 prepare_psi_minus_qfunc.
Definition prepare_phi_plus : option (list C) := qnode 2 prepare_phi_plus_qfunc.
Definition prepare_phi_minus : option (list C) := qnode 2 prepare_phi_minus_qfunc.

(** Codercise 1.14.2, on three wires *)
Definition apply_control_sequence_qfunc (state : list Z)
  : XTape (Meas (list C)) :=
  (s0 <- xindex state 0 ;;
   (if Z.eqb s0 1 then xqueue (Gate (PauliX 0)) else xret tt) ;;
   s1 <- xindex state 1 ;;
   (if Z.eqb s1 1 then xqueue (Gate (PauliX 1)) else xret tt) ;;
   xqueue (Gate (PauliX 2)) ;;
   xqueue (Gate (Hadamard 2)) ;;
   xqueue (MultiControlledX [0; 1]%nat 2 [0; 1]%Z) ;;
   xqueue (Gate (Hadamard 2)) ;;
   xqueue (MultiControlledX [0; 1]%nat 2 [1; 0]%Z) ;;
   xqueue (Gate (Hadamard 2)) ;;
   xqueue (Gate (RZ (- PI / 2) 2)) ;;
   xqueue (MultiControlledX [0; 1]%nat 2 [1; 1]%Z) ;;
   xqueue (Gate (RZ (PI / 2) 2)) ;;
   xret state_vector)%xtape.

Definition apply_control_sequence (state : list Z) : option (list C) :=
  xqnode 3 (apply_control_sequence_qfunc state).

End MultiQubitGateChallenge.

(** ** Measurement (Codercise 1.9.1) *)

Module Measurement.

(** on one wire; [qml.probs(wires=0)] is the whole device *)
Definition apply_h_and_measure_qfunc (state : Z) : Tape (Meas (list R)) :=
  (if Z.eqb state 1 then queue (PauliX 0) else ret tt) ;;
  queue (Hadamard 0) ;;
  ret probs.

Definition apply_h_and_measure (state : Z) : option (list R) :=
  qnode 1 (apply_h_and_measure_qfunc state).

(** Codercise 1.9.2 *)
Definition prepare_psi : XTape unit :=
  (xqueue (Gate (RY (2 * PI / 3) 0)) ;;
   xqueue (Gate (RZ (PI / 2) 0)))%xtape.

Definition y_basis_rotation : XTape unit :=
  (xqueue (Gate (Hadamard 0)) ;;
   xqueue (S_gate 0))%xtape.

(** Codercise 1.9.3, on one wire *)
Definition measure_in_y_basis_qfunc : XTape (Meas (list R)) :=
  (prepare_psi ;;
   adjoint y_basis_rotation ;;
   xret probs)%xtape.

Definition measure_in_y_basis : option (list R) :=
  xqnode 1 measure_in_y_basis_qfunc.

End Measurement.

(** ** What Did You Expect? (Codercise 1.10.3) *)

Module WhatDidYouExpect.

(** the counting loop: a sample equal to 1 counts as plus, any other as
    minus *)
Fixpoint count_samples (samples : list R) (plus minus : Z) : Z * Z :=
  match samples with
  | [] => (plus, minus)
  | x :: samples' =>
      if Req_dec_T x 1 then count_samples samples' (plus + 1)%Z minus
      else count_samples samples' plus (minus + 1)%Z
  end.

(** the final division is by [len(samples)], zero for no samples *)
Definition compute_expval_from_samples (samples : list R) : option R :=
  let (plus, minus) := count_samples samples 0%Z 0%Z in
  match length samples with
  | O => None
  | S _ => Some (IZR ((-1) * minus + plus) / INR (length samples))
  end.

End WhatDidYouExpect.

(** ** Single Qubit Gates / Prepare_Yourself.ipynb *)

Module PrepareYourself.

(** Codercise 1.8.3, second cell *)
Definition y_basis_rotation : Tape unit :=
  queue (RX (PI / 2) 0).

End PrepareYourself.

(** ** Task-2 Variational Classifier / Parity_Classification.ipynb *)

Module ParityClassification.

(** [dev = qml.device("default.qubit")]: the wires are those of the tape,
    which always names wires 0 to 3 *)
Definition num_wires : nat := 4.

Definition state_preparation (x : list Z) : Tape unit :=
  queue (BasisState x [0; 1; 2; 3]%nat).

(** [qml.Rot] on the unpacked row [layer_weights[wire]]: indexing a missing
    row raises, and so does a row that does not unpack into three angles *)
Definition rot_on (layer_weights : list (list R)) (wire : nat) : Tape unit :=
  match nth_error layer_weights wire with
  | Some [phi; theta; omega] => queue (Rot phi theta omega wire)
  | _ => raise
  end.

Definition layer (layer_weights : list (list R)) : Tape unit :=
  for_each (seq 0 4) (rot_on layer_weights) ;;
  for_each [(0, 1); (1, 2); (2, 3); (3, 0)]%nat
           (fun wires => queue (CNOT (fst wires) (snd wires))).

Definition circuit_qfunc (weights : list (list (list R))) (x : list Z)
  : Tape (Meas R) :=
  state_preparation x ;;
  for_each weights layer ;;
  ret (expval_PauliZ 0).

Definition circuit (weights : list (list (list R))) (x : list Z) : option R :=
  qnode num_wires (circuit_qfunc weights x).

Definition variational_classifier
    (weights : list (list (list R))) (bias : R) (x : list Z) : option R :=
  match circuit weights x with
  | Some v => Some (v + bias)
  | None => None
  end.

(** [qml.math.stack]: there is nothing to stack in an empty list *)
Definition stack (predictions : list R) : option (list R) :=
  match predictions with
  | [] => None
  | _ => Some predictions
  end.

Fixpoint zip_with {A B D : Type} (f : A -> B -> D) (a : list A) (b : list B)
  : list D :=
  match a, b with
  | x :: a', y :: b' => f x y :: zip_with f a' b'
  | _, _ => []
  end.

(** subtraction of one-dimensional arrays, with NumPy's broadcasting of a
    length-one operand; other length mismatches raise *)
Definition np_sub (a b : list R) : option (list R) :=
  if (length a =? length b)%nat then Some (zip_with Rminus a b)
  else match a, b with
       | _, [y] => Some (map (fun x => x - y) a)
       | [x], _ => Some (map (fun y => x - y) b)
       | _, _ => None
       end.

Definition np_sum (a : list R) : R := fold_right Rplus 0 a.

(** [np.mean]: the mean of an empty array is [nan] *)
Definition np_mean (a : list R) : option R :=
  match a with
  | [] => None
  | _ => Some (np_sum a / INR (length a))
  end.

Definition square_loss (labels predictions : list R) : option R :=
  match stack predictions with
  | Some stacked =>
      match np_sub labels stacked with
      | Some d => np_mean (map (fun v => v ^ 2) d)
      | None => None
      end
  | None => None
  end.

(** [sum(abs(l - p) < 1e-5 for l, p in zip(labels, predictions))] *)
Fixpoint count_close (labels predictions : list R) : nat :=
  match labels, predictions with
  | l :: labels', p :: predictions' =>
      ((if Rlt_dec (Rabs (l - p)) (1 / 100000) then 1 else 0)
       + count_close labels' predictions')%nat
  | _, _ => O
  end.

(** [acc / len(labels)] divides by zero on empty labels *)
Definition accuracy (labels predictions : list R) : option R :=
  let acc := count_close labels predictions in
  match length labels with
  | O => None
  | S _ => Some (INR acc / INR (length labels))
  end.

(** a list comprehension whose element expression may raise *)
Fixpoint comprehension {A B : Type} (f : A -> option B) (l : list A)
  : option (list B) :=
  match l with
  | [] => Some []
  | a :: l' =>
      match f a with
      | Some b =>
          match comprehension f l' with
          | Some bs => Some (b :: bs)
          | None => None
          end
      | None => None
      end
  end.

Definition cost (weights : list (list (list R))) (bias : R)
    (X : list (list Z)) (Y : list R) : option R :=
  match comprehension (variational_classifier weights bias) X with
  | Some predictions => square_loss Y predictions
  | None => None
  end.

(** [np.sign] *)
Definition sign (v : R) : R :=
  if Rlt_dec v 0 then -1 else if Rlt_dec 0 v then 1 else 0.

(** The optimizer is PennyLane's [NesterovMomentumOptimizer(0.5)]; the loop
    only calls its [step] on an objective and the current parameters, and
    gets back new parameters.  Its momentum accumulator is the [Opt]. *)
Class Optimizer (Opt : Type) : Type := {
  step : Opt -> (list (list (list R)) -> R -> option R) ->
         list (list (list R)) -> R ->
         option (list (list (list R)) * R * Opt)
}.

(** [A[batch_index]]: integer-array indexing copies the selected rows *)
Definition take {A : Type} (a : list A) (index : list nat) : option (list A) :=
  comprehension (nth_error a) index.

(** what is live at the head of the training loop: the names the loop
    reads before writing, the two library objects carrying state across
    iterations, and the lines printed so far *)
Record TrainState (Opt G : Type) : Type := mkTrain {
  weights : list (list (list R));
  bias : R;
  X : list (list Z);
  Y : list R;
  batch_size : nat;
  opt : Opt;
  rng : G;
  printed : list (nat * R * R)
}.

Arguments mkTrain {Opt G}.
Arguments weights {Opt G}.
Arguments bias {Opt G}.
Arguments X {Opt G}.
Arguments Y {Opt G}.
Arguments batch_size {Opt G}.
Arguments opt {Opt G}.
Arguments rng {Opt G}.
Arguments printed {Opt G}.

(** an iteration either runs to its end or stops at the statement that
    raised, leaving the assignments made so far *)
Inductive outcome (S : Type) : Type :=
| Completed (s : S)
| Aborted (s : S).

Arguments Completed {S}.
Arguments Aborted {S}.

Definition state_of {S : Type} (r : outcome S) : S :=
  match r with
  | Completed s => s
  | Aborted s => s
  end.

Section Training.

Context {Opt G : Type} `{Optimizer Opt} `{RandomState G}.

(** the monitoring half of the loop body *)
Definition report (it : nat) (st : TrainState Opt G) : option (nat * R * R) :=
  match comprehension
          (fun x => option_map sign
                      (variational_classifier (weights st) (bias st) x))
          (X st) with
  | Some predictions =>
      match cost (weights st) (bias st) (X st) (Y st) with
      | Some current_cost =>
          match accuracy (Y st) predictions with
          | Some acc => Some ((it + 1)%nat, current_cost, acc)
          | None => None
          end
      | None => None
      end
  | None => None
  end.

(** the body of [for it in range(60)] *)
Definition iteration (it : nat) (st : TrainState Opt G)
  : outcome (TrainState Opt G) :=
  match randint_array 0 (length (X st)) (batch_size st) (rng st) with
  | None => Aborted st
  | Some (batch_index, g) =>
      let st1 := mkTrain (weights st) (bias st) (X st) (Y st)
                         (batch_size st) (opt st) g (printed st) in
      match take (X st) batch_index, take (Y st) batch_index with
      | Some X_batch, Some Y_batch =>
          match step (opt st)
                     (fun w b => cost w b X_batch Y_batch)
                     (weights st) (bias st) with
          | Some (weights', bias', opt') =>
              let st2 := mkTrain weights' bias' (X st) (Y st)
                                 (batch_size st) opt' g (printed st) in
              match report it st2 with
              | Some line =>
                  Completed (mkTrain weights' bias' (X st) (Y st)
                                     (batch_size st) opt' g
                                     (printed st ++ [line]))
              | None => Aborted st2
              end
          | None => Aborted st1
          end
      | _, _ => Aborted st1
      end
  end.

(** iterations [it], [it + 1], ... ([k] of them), stopping at the first
    one that raises *)
Fixpoint run (k it : nat) (st : TrainState Opt G) : outcome (TrainState Opt G) :=
  match k with
  | O => Completed st
  | S k' =>
      match iteration it st with
      | Completed st' => run k' (S it) st'
      | Aborted st' => Aborted st'
      end
  end.

(** cells 7 and 8: [batch_size = 5] and sixty iterations from the
    initial parameters *)
Definition training_loop (weights_init : list (list (list R))) (bias_init : R)
    (X : list (list Z)) (Y : list R) (opt : Opt) (g : G)
  : outcome (TrainState Opt G) :=
  run 60 0 (mkTrain weights_init bias_init X Y 5 opt g []).

End Training.

End ParityClassification.

(** ** Vocabulary of the statements *)

(** a probability vector: non-negative entries that sum to one *)
Definition prob_vector (p : list R) : Prop :=
  Forall (fun v => 0 <= v) p /\ fold_right Rplus 0 p = 1.

(** the whole tape as one linear map *)
Definition evolve {n : nat} (ops : list Op) (s : St n) : St n :=
  fold_left (fun s o => action o s) ops s.

(** a weights tensor of shape [(L, 4, 3)] *)
Definition layer_shape (layer_weights : list (list R)) : bool :=
  (length layer_weights =? 4)%nat
  && forallb (fun row => (length row =? 3)%nat) layer_weights.

Definition has_shape (L : nat) (weights : list (list (list R))) : bool :=
  (length weights =? L)%nat && forallb layer_shape weights.

(** a 4-bit input *)
Definition four_bits (x : list Z) : bool :=
  (length x =? 4)%nat && forallb is_bit x.

(** one layer as the notebook's text describes it: an arbitrary rotation
    on each of the four wires, then a ring of CNOT gates *)
Definition rot_of (row : list R) (wire : nat) : Op :=
  Rot (nth 0 row 0) (nth 1 row 0) (nth 2 row 0) wire.

Definition layer_gates (layer_weights : list (list R)) : list Op :=
  [rot_of (nth 0 layer_weights []) 0; rot_of (nth 1 layer_weights []) 1;
   rot_of (nth 2 layer_weights []) 2; rot_of (nth 3 layer_weights []) 3;
   CNOT 0 1; CNOT 1 2; CNOT 2 3; CNOT 3 0].

(** an operation without its parameters: which gate, on which wires *)
Inductive GateKind : Type :=
| RotOn (w : nat)
| CnotOn (c t : nat)
| OtherGate.

Definition kind (o : Op) : GateKind :=
  match o with
  | Rot _ _ _ w => RotOn w
  | CNOT c t => CnotOn c t
  | _ => OtherGate
  end.

Definition layer_pattern : list GateKind :=
  [RotOn 0; RotOn 1; RotOn 2; RotOn 3;
   CnotOn 0 1; CnotOn 1 2; CnotOn 2 3; CnotOn 3 0].

(** the sum of the squared differences of two sequences, index by index *)
Fixpoint sum_sq_diff (labels predictions : list R) : R :=
  match labels, predictions with
  | l :: labels', p :: predictions' =>
      (l - p) ^ 2 + sum_sq_diff labels' predictions'
  | _, _ => 0
  end.

(** a zipped pair whose entries differ by less than 1e-5 *)
Definition is_close (lp : R * R) : bool :=
  if Rlt_dec (Rabs (fst lp - snd lp)) (1 / 100000) then true else false.

(** the next [k] floats of a generator, and the generator after them *)
Fixpoint draws {G : Type} `{RandomState G} (k : nat) (g : G) : list R :=
  match k with
  | O => []
  | S k' => fst (random g) :: draws k' (snd (random g))
  end.

Fixpoint after {G : Type} `{RandomState G} (k : nat) (g : G) : G :=
  match k with
  | O => g
  | S k' => after k' (snd (random g))
  end.

(** the outcome a uniform draw selects: 0 below [prob_0], otherwise 1 *)
Definition outcome_of (prob_0 x : R) : Z :=
  if Rlt_dec x prob_0 then 0%Z else 1%Z.

(** a generator that replays 10, then 90 for ever *)
Definition low_then_high : replay :=
  fun i => match i with O => 10%nat | S _ => 90%nat end.

(** an optimizer that hands the parameters back unchanged *)
#[global] Instance idle_Optimizer : ParityClassification.Optimizer unit := {
  step := fun o _ w b => Some (w, b, o)
}.

(** an optimizer that evaluates its objective at the parameters it is
    given, raises when the objective does, and otherwise hands the
    parameters back; its state counts the evaluations *)
#[global] Instance probing_Optimizer : ParityClassification.Optimizer nat := {
  step := fun o f w b =>
            match f w b with
            | Some _ => Some (w, b, S o)
            | None => None
            end
}.

(** a real whose square is zero or at least [min_normal] *)
Definition square_in_range (x : R) : Prop := x = 0 \/ min_normal <= x * x.

(** amplitudes [normalize_state] handles inside the normal range of
    doubles: the squares of their non-zero real and imaginary parts are
    at least 2^-1022 and add up to less than 2^1022 *)
Definition in_range (alpha beta : C) : Prop :=
  square_in_range (fst alpha) /\ square_in_range (snd alpha)
  /\ square_in_range (fst beta) /\ square_in_range (snd beta)
  /\ Cnorm2 alpha + Cnorm2 beta < 2 ^ 1022.







(** a sample equal to 1 *)
Definition is_one (x : R) : bool := if Req_dec_T x 1 then true else false.

(** the sum over the common indices of conj(a[i]) * b[i] *)
Fixpoint dot (a b : list C) : C :=
  match a, b with
  | x :: a', y :: b' => Cadd (Cmul (Cconj x) y) (dot a' b')
  | _, _ => C0
  end.

(** a row that unpacks into three angles *)
Definition row_ok (row : option (list R)) : bool :=
  match row with
  | Some [_; _; _] => true
  | _ => false
  end.

(** what [layer] needs of its argument: rows 0 to 3 exist and hold
    three angles each (further rows are not looked at) *)
Definition layer_accepts (layer_weights : list (list R)) : bool :=
  forallb (fun wire => row_ok (nth_error layer_weights wire)) (seq 0 4).

(** training data the loop can work on: weights of shape (L, 4, 3),
    4-bit inputs, as many labels as inputs, at least one of them, and
    batches that are not empty *)
Definition well_formed {Opt G : Type} (L : nat)
    (st : ParityClassification.TrainState Opt G) : Prop :=
  has_shape L (ParityClassification.weights st) = true
  /\ forallb four_bits (ParityClassification.X st) = true
  /\ length (ParityClassification.Y st) = length (ParityClassification.X st)
  /\ ParityClassification.X st <> []
  /\ (0 < ParityClassification.batch_size st)%nat.

(** [table[key]] in a dict written as a list of items *)
Fixpoint lookup (key : String.string)
    (table : list (String.string * String.string)) : option String.string :=
  match table with
  | [] => None
  | (k, v) :: table' => if String.eqb key k then Some v else lookup key table'
  end.

(** the bits a label such as "10" names *)
Definition bits_of (label : String.string) : list bool :=
  map (fun ch => Ascii.eqb ch "1"%char) (String.list_ascii_of_string label).

(** a two-wire state that is the product of two one-wire states *)
Definition is_product (v : list C) : Prop :=
  exists a b c d : C, v = [Cmul a c; Cmul a d; Cmul b c; Cmul b d].

(** a tape of extended operations as one linear map *)
Definition xevolve {n : nat} (ops : list XOp) (s : St n) : St n :=
  fold_left (fun s x => xaction x s) ops s.

(** the one-wire state |-> = (|0> - |1>)/sqrt 2 *)
Definition minus_state : St 1 := (RtoC (1 / sqrt 2), RtoC (- (1 / sqrt 2))).

(** the gate the multiplexer's comments name for each state of the two
    control wires: nothing on 00, X on 01, Z on 10, Y on 11 *)
Definition multiplexed (c0 c1 : bool) : Mat2 :=
  match c0, c1 with
  | false, false => I_mat
  | false, true => X_mat
  | true, false => Z_mat
  | true, true => Y_mat
  end.

(** the three-wire state with wires 0 and 1 in the basis state [c0 c1]
    and wire 2 in the state [v] *)
Definition on_controls (c0 c1 : bool) (v : St 1) : St 3 :=
  let z := vzero 1 in
  match c0, c1 with
  | false, false => ((v, z), (z, z))
  | false, true => ((z, v), (z, z))
  | true, false => ((z, z), (v, z))
  | true, true => ((z, z), (z, v))
  end.

(* ================================================================== *)
(** * Part II: properties                                              *)
(* ================================================================== *)

(** ** Complex numbers and state tensors *)

Lemma Cnorm2_nonneg (a : C) : 0 <= Cnorm2 a.
Proof. unfold Cnorm2. nra. Qed.

Lemma nrm2_nonneg {n : nat} (s : St n) : 0 <= nrm2 s.
Proof.
  induction n as [|n IH]; simpl.
  - apply Cnorm2_nonneg.
  - destruct s as [a b]; simpl. pose proof (IH a). pose proof (IH b). lra.
Qed.

Lemma nrm2_vzero (n : nat) : nrm2 (vzero n) = 0.
Proof.
  induction n as [|n IH]; simpl.
  - unfold Cnorm2, C0; simpl. ring.
  - rewrite IH. ring.
Qed.

Lemma nrm2_ket0 (n : nat) : nrm2 (ket0 n) = 1.
Proof.
  induction n as [|n IH]; simpl.
  - unfold Cnorm2, C1; simpl. ring.
  - rewrite IH, nrm2_vzero. ring.
Qed.

Lemma lin2_zero {n : nat} (x y : C) : lin2 x y (vzero n) (vzero n) = vzero n.
Proof.
  unfold lin2. induction n as [|n IH]; simpl.
  - unfold Cadd, Cmul, C0; simpl. f_equal; ring.
  - rewrite IH. reflexivity.
Qed.

Lemma lin2_unitary_C (U : Mat2) (a b : C) :
  unitary2 U ->
  Cnorm2 (Cadd (Cmul (m00 U) a) (Cmul (m01 U) b))
  + Cnorm2 (Cadd (Cmul (m10 U) a) (Cmul (m11 U) b))
  = Cnorm2 a + Cnorm2 b.
Proof.
  destruct U as [[p0 q0] [p1 q1] [p2 q2] [p3 q3]].
  destruct a as [a1 a2], b as [b1 b2].
  unfold unitary2, Cnorm2, Cadd, Cmul, Cconj, C0; simpl.
  intros (H1 & H2 & H3).
  injection H3 as HP HQ.
  transitivity
    ((p0 * p0 + q0 * q0 + (p2 * p2 + q2 * q2)) * (a1 * a1 + a2 * a2)
     + (p1 * p1 + q1 * q1 + (p3 * p3 + q3 * q3)) * (b1 * b1 + b2 * b2)
     + 2 * ((p0 * p1 - - q0 * q1 + (p2 * p3 - - q2 * q3)) * (a1 * b1 + a2 * b2)
            - (p0 * q1 + - q0 * p1 + (p2 * q3 + - q2 * p3)) * (a1 * b2 - a2 * b1))).
  - ring.
  - rewrite H1, H2, HP, HQ. ring.
Qed.

Lemma lin2_unitary {n : nat} (U : Mat2) (a b : St n) :
  unitary2 U ->
  nrm2 (lin2 (m00 U) (m01 U) a b) + nrm2 (lin2 (m10 U) (m11 U) a b)
  = nrm2 a + nrm2 b.
Proof.
  intros HU. induction n as [|n IH].
  - apply lin2_unitary_C, HU.
  - destruct a as [a1 a2], b as [b1 b2]. unfold lin2 in *. simpl.
    pose proof (IH a1 b1). pose proof (IH a2 b2). lra.
Qed.

Lemma apply1_norm {n : nat} (U : Mat2) (k : nat) (s : St n) :
  unitary2 U -> nrm2 (apply1 U k s) = nrm2 s.
Proof.
  intros HU. revert k. induction n as [|n IH]; intros k.
  - reflexivity.
  - destruct s as [a b]. destruct k as [|k]; simpl.
    + apply lin2_unitary, HU.
    + rewrite !IH. reflexivity.
Qed.

Lemma sel_same {n : nat} (c : nat) (s : St n) : sel c s s = s.
Proof.
  revert c. induction n as [|n IH]; intros c.
  - reflexivity.
  - destruct s as [a b]. destruct c as [|c]; simpl.
    + reflexivity.
    + rewrite !IH. reflexivity.
Qed.

Lemma sel_norm {n : nat} (c : nat) (s t : St n) :
  nrm2 (sel c s t) = nrm2 (sel c s (vzero n)) + nrm2 (sel c (vzero n) t).
Proof.
  revert c. induction n as [|n IH]; intros c.
  - simpl. change (Cnorm2 C0) with (nrm2 (vzero 0)). rewrite nrm2_vzero. ring.
  - destruct s as [a b], t as [a' b']. destruct c as [|c]; simpl.
    + rewrite nrm2_vzero. ring.
    + rewrite (IH a a'), (IH b b'). ring.
Qed.

Lemma sel_zero_lin2 {n : nat} (c : nat) (x y : C) (a b : St n) :
  sel c (vzero n) (lin2 x y a b)
  = lin2 x y (sel c (vzero n) a) (sel c (vzero n) b).
Proof.
  revert c. induction n as [|n IH]; intros c.
  - simpl. symmetry. apply (@lin2_zero 0).
  - destruct a as [a1 a2], b as [b1 b2]. destruct c as [|c].
    + unfold lin2 at 2. simpl. fold (lin2 x y (vzero n) (vzero n)).
      rewrite lin2_zero. reflexivity.
    + unfold lin2 in *. simpl. rewrite <- !IH. reflexivity.
Qed.

Lemma ctrl_norm {n : nat} (U : Mat2) (c t : nat) (s : St n) :
  unitary2 U -> c <> t -> nrm2 (ctrl U c t s) = nrm2 s.
Proof.
  intros HU. unfold ctrl. revert c t. induction n as [|n IH]; intros c t Hct.
  - reflexivity.
  - destruct s as [a b]. destruct c as [|c], t as [|t]; simpl.
    + congruence.
    + rewrite apply1_norm by exact HU. reflexivity.
    + rewrite (sel_norm c a), (sel_norm c b), !sel_zero_lin2.
      pose proof (lin2_unitary U (sel c (vzero n) a) (sel c (vzero n) b) HU) as E.
      pose proof (sel_norm c a a) as Ea. pose proof (sel_norm c b b) as Eb.
      rewrite sel_same in Ea, Eb. lra.
    + rewrite (IH a), (IH b) by congruence. reflexivity.
Qed.

(** ** The gates are unitary *)

Lemma inv_sqrt2_sqr : / sqrt 2 * / sqrt 2 = / 2.
Proof.
  rewrite <- Rinv_mult, sqrt_sqrt by lra. reflexivity.
Qed.

Lemma cos2_sin2 (x : R) : cos x * cos x + sin x * sin x = 1.
Proof.
  pose proof (sin2_cos2 x) as E. unfold Rsqr in E. lra.
Qed.

Lemma X_unitary : unitary2 X_mat.
Proof.
  unfold unitary2, X_mat, Cnorm2, Cadd, Cmul, Cconj, C0, C1; simpl.
  repeat split; try ring. f_equal; ring.
Qed.

Lemma H_unitary : unitary2 H_mat.
Proof.
  pose proof inv_sqrt2_sqr as E.
  unfold unitary2, H_mat, Cnorm2, Cadd, Cmul, Cconj, C0, RtoC; simpl.
  repeat split; try nra. f_equal; nra.
Qed.

Lemma RX_unitary (theta : R) : unitary2 (RX_mat theta).
Proof.
  pose proof (cos2_sin2 (theta / 2)) as E.
  unfold unitary2, RX_mat, Cnorm2, Cadd, Cmul, Cconj, C0, RtoC; simpl.
  repeat split; try nra. f_equal; nra.
Qed.

Lemma RY_unitary (theta : R) : unitary2 (RY_mat theta).
Proof.
  pose proof (cos2_sin2 (theta / 2)) as E.
  unfold unitary2, RY_mat, Cnorm2, Cadd, Cmul, Cconj, C0, RtoC; simpl.
  repeat split; try nra. f_equal; nra.
Qed.

Lemma RZ_unitary (theta : R) : unitary2 (RZ_mat theta).
Proof.
  pose proof (cos2_sin2 (theta / 2)) as E1.
  pose proof (cos2_sin2 (- theta / 2)) as E2.
  unfold unitary2, RZ_mat, Cnorm2, Cadd, Cmul, Cconj, Cexp, C0; simpl.
  repeat split; try nra. f_equal; nra.
Qed.

Lemma Rot_unitary (phi theta omega : R) : unitary2 (Rot_mat phi theta omega).
Proof.
  unfold unitary2, Rot_mat, Cnorm2, Cadd, Cmul, Cconj, Copp, Cexp, C0, RtoC; simpl.
  replace (- (phi + omega) / 2) with (- ((phi + omega) / 2)) by field.
  replace (- (phi - omega) / 2) with (- ((phi - omega) / 2)) by field.
  rewrite !cos_neg, !sin_neg.
  set (cA := cos ((phi + omega) / 2)). set (sA := sin ((phi + omega) / 2)).
  set (cB := cos ((phi - omega) / 2)). set (sB := sin ((phi - omega) / 2)).
  set (c := cos (theta / 2)). set (s := sin (theta / 2)).
  assert (EA : cA * cA + sA * sA = 1) by apply cos2_sin2.
  assert (EB : cB * cB + sB * sB = 1) by apply cos2_sin2.
  assert (ET : c * c + s * s = 1) by apply cos2_sin2.
  repeat split.
  - transitivity ((cA * cA + sA * sA) * (c * c) + (cB * cB + sB * sB) * (s * s)).
    + ring.
    + rewrite EA, EB. lra.
  - transitivity ((cB * cB + sB * sB) * (s * s) + (cA * cA + sA * sA) * (c * c)).
    + ring.
    + rewrite EA, EB. lra.
  - f_equal; ring.
Qed.

(** ** Executing a tape *)

Lemma flip_bits_norm {n : nat} (x : list Z) (wires : list nat) (s : St n) :
  nrm2 (flip_bits x wires s) = nrm2 s.
Proof.
  revert wires s. induction x as [|b x IH]; intros wires s.
  - reflexivity.
  - destruct wires as [|w wires]; simpl.
    + reflexivity.
    + rewrite IH. destruct (Z.eqb b 1).
      * apply apply1_norm, X_unitary.
      * reflexivity.
Qed.

Lemma two_wires_distinct (n c t : nat) :
  (c <? n)%nat && (t <? n)%nat && negb (c =? t)%nat = true -> c <> t.
Proof.
  intros E. apply andb_true_iff in E as [_ E].
  apply negb_true_iff, Nat.eqb_neq in E. exact E.
Qed.

Lemma action_norm {n : nat} (o : Op) (s : St n) :
  valid_on n o = true -> nrm2 (action o s) = nrm2 s.
Proof.
  destruct o; simpl; intros Hv;
    try (apply apply1_norm;
         first [apply X_unitary | apply H_unitary | apply RX_unitary
               | apply RY_unitary | apply RZ_unitary | apply Rot_unitary]);
    try (apply ctrl_norm;
         [ first [apply X_unitary | apply RX_unitary | apply RY_unitary
                 | apply RZ_unitary]
         | eapply two_wires_distinct, Hv ]).
  apply flip_bits_norm.
Qed.

Lemma execute_from_valid {n : nat} (ops : list Op) (s : St n) :
  forallb (valid_on n) ops = true ->
  execute_from ops s = Some (evolve ops s).
Proof.
  revert s. induction ops as [|o ops IH]; intros s Hv; simpl in *.
  - reflexivity.
  - apply andb_true_iff in Hv as [Ho Hv].
    unfold apply_op. rewrite Ho. apply IH, Hv.
Qed.

Lemma execute_from_norm {n : nat} (ops : list Op) (s s' : St n) :
  execute_from ops s = Some s' -> nrm2 s' = nrm2 s.
Proof.
  revert s. induction ops as [|o ops IH]; intros s E; simpl in E.
  - injection E as <-. reflexivity.
  - unfold apply_op in E. destruct (valid_on n o) eqn:Ho; [|discriminate].
    rewrite (IH _ E). apply action_norm, Ho.
Qed.

Lemma execute_norm (n : nat) (ops : list Op) (s : St n) :
  execute n ops = Some s -> nrm2 s = 1.
Proof.
  intros E. rewrite (execute_from_norm _ _ _ E). apply nrm2_ket0.
Qed.

(** ** Measuring a state *)

Lemma amplitudes_length {n : nat} (s : St n) :
  length (amplitudes s) = (2 ^ n)%nat.
Proof.
  induction n as [|n IH]; simpl.
  - reflexivity.
  - rewrite length_app, !IH. lia.
Qed.

Lemma sum_app (a b : list R) :
  fold_right Rplus 0 (a ++ b) = fold_right Rplus 0 a + fold_right Rplus 0 b.
Proof.
  induction a as [|x a IH]; simpl.
  - ring.
  - rewrite IH. ring.
Qed.

Lemma sum_probs {n : nat} (s : St n) :
  fold_right Rplus 0 (map Cnorm2 (amplitudes s)) = nrm2 s.
Proof.
  induction n as [|n IH]; simpl.
  - ring.
  - rewrite map_app, sum_app, !IH. reflexivity.
Qed.

Lemma probs_nonneg {n : nat} (s : St n) :
  Forall (fun v => 0 <= v) (map Cnorm2 (amplitudes s)).
Proof.
  apply Forall_forall. intros v Hin.
  apply in_map_iff in Hin as (a & <- & _). apply Cnorm2_nonneg.
Qed.

(** a tape of valid operations ending in [qml.probs()] yields a
    probability vector with one entry per basis state *)
Lemma qnode_probs (n : nat) (qfunc : Tape (Meas (list R))) (ops : list Op) :
  tape_of qfunc = Some (probs, ops) ->
  forallb (valid_on n) ops = true ->
  exists p, qnode n qfunc = Some p /\ length p = (2 ^ n)%nat /\ prob_vector p.
Proof.
  intros Ht Hv. unfold qnode. rewrite Ht.
  pose proof (execute_from_valid ops (ket0 n) Hv) as E.
  unfold execute. rewrite E. simpl.
  eexists. split; [reflexivity|]. split.
  - rewrite length_map. apply amplitudes_length.
  - split.
    + apply probs_nonneg.
    + rewrite sum_probs. apply (execute_norm n ops). exact E.
Qed.

(** C3: every probability vector returned by a circuit evaluation has
    non-negative entries summing to one.  [apply_h_and_measure(state)]
    returns a probability vector of length 2 (for every integer [state],
    in particular for 0 and 1); [controlled_rotations(theta, phi, omega)]
    and [my_circuit(theta, phi, omega)] return probability vectors of
    length 8, for all angles. *)
Theorem probability_vectors_sum_to_one :
  (forall st : Z,
      exists p, Measurement.apply_h_and_measure st = Some p
                /\ length p = 2%nat /\ prob_vector p)
  /\ (forall theta phi omega : R,
         exists p, AllTiedUp.controlled_rotations theta phi omega = Some p
                   /\ length p = 8%nat /\ prob_vector p)
  /\ (forall theta phi omega : R,
         exists p, QuantumCircuits.my_circuit theta phi omega = Some p
                   /\ length p = 8%nat /\ prob_vector p).
Proof.
  split; [|split].
  - intros st. unfold Measurement.apply_h_and_measure.
    destruct (Z.eqb st 1) eqn:E.
    + apply (qnode_probs 1 _ [PauliX 0; Hadamard 0]).
      * unfold Measurement.apply_h_and_measure_qfunc. rewrite E. reflexivity.
      * reflexivity.
    + apply (qnode_probs 1 _ [Hadamard 0]).
      * unfold Measurement.apply_h_and_measure_qfunc. rewrite E. reflexivity.
      * reflexivity.
  - intros theta phi omega.
    apply (qnode_probs 3 _ [Hadamard 0; CRX theta 0 1; CRY phi 1 2; CRZ omega 2 0]);
      reflexivity.
  - intros theta phi omega.
    apply (qnode_probs 3 _ [RX theta 0; RY phi 1; RZ omega 2;
                            CNOT 0 1; CNOT 1 2; CNOT 2 0]);
      reflexivity.
Qed.

(** ** Bell states *)

Ltac list_eq :=
  repeat match goal with
         | |- Some _ = Some _ => f_equal
         | |- _ :: _ = _ :: _ => f_equal
         | |- (_, _) = (_, _) => f_equal
         | |- @eq R _ _ => unfold Rdiv; ring
         end.

Ltac amplitudes_eq :=
  unfold qnode; simpl;
  unfold lin2; simpl;
  unfold Cadd, Cmul, Copp, RtoC, C0, C1; simpl;
  list_eq.

(** the same by evaluating the simulator on the tape, the arithmetic on
    the reals being left to [ring] *)
Ltac tape_amplitudes_eq :=
  cbv [qnode tape_of bind queue ret app execute execute_from apply_op valid_on
       action apply1 ctrl sel lin2 vadd vscale ket0 vzero amplitudes measure
       fst snd Nat.ltb Nat.leb Nat.eqb andb negb X_mat H_mat m00 m01 m10 m11
       Cadd Cmul RtoC C0 C1 Copp
       MultiQubitGateChallenge.prepare_psi_plus_qfunc
       MultiQubitGateChallenge.prepare_psi_minus_qfunc
       MultiQubitGateChallenge.prepare_phi_plus_qfunc
       MultiQubitGateChallenge.prepare_phi_minus_qfunc];
  list_eq.

(** C7: from the two-wire state |00>, the four preparation circuits
    return the Bell vectors: [prepare_psi_plus()] is (|00>+|11>)/sqrt 2,
    that is [1/sqrt 2, 0, 0, 1/sqrt 2]; [prepare_psi_minus()] is
    (|00>-|11>)/sqrt 2; [prepare_phi_plus()] is (|01>+|10>)/sqrt 2;
    [prepare_phi_minus()] is (|01>-|10>)/sqrt 2. *)
Theorem bell_basis_states :
  MultiQubitGateChallenge.prepare_psi_plus
  = Some [RtoC (1 / sqrt 2); C0; C0; RtoC (1 / sqrt 2)]
  /\ MultiQubitGateChallenge.prepare_psi_minus
     = Some [RtoC (1 / sqrt 2); C0; C0; RtoC (- (1 / sqrt 2))]
  /\ MultiQubitGateChallenge.prepare_phi_plus
     = Some [C0; RtoC (1 / sqrt 2); RtoC (1 / sqrt 2); C0]
  /\ MultiQubitGateChallenge.prepare_phi_minus
     = Some [C0; RtoC (1 / sqrt 2); RtoC (- (1 / sqrt 2)); C0].
Proof.
  repeat split.
  - unfold MultiQubitGateChallenge.prepare_psi_plus. tape_amplitudes_eq.
  - unfold MultiQubitGateChallenge.prepare_psi_minus. tape_amplitudes_eq.
  - unfold MultiQubitGateChallenge.prepare_phi_plus. tape_amplitudes_eq.
  - unfold MultiQubitGateChallenge.prepare_phi_minus. tape_amplitudes_eq.
Qed.

(** ** The parity circuit *)

Import ParityClassification.

Lemma layer_tape (layer_weights : list (list R)) (q : list Op) :
  layer_shape layer_weights = true ->
  layer layer_weights q = Some (tt, q ++ layer_gates layer_weights).
Proof.
  intros Hs. unfold layer_shape in Hs.
  destruct layer_weights as [|r0 [|r1 [|r2 [|r3 [|r4 lw]]]]]; try discriminate Hs.
  simpl in Hs.
  destruct r0 as [|a0 [|b0 [|c0 [|d0 r0]]]]; try discriminate Hs.
  destruct r1 as [|a1 [|b1 [|c1 [|d1 r1]]]]; try discriminate Hs.
  destruct r2 as [|a2 [|b2 [|c2 [|d2 r2]]]]; try discriminate Hs.
  destruct r3 as [|a3 [|b3 [|c3 [|d3 r3]]]]; try discriminate Hs.
  unfold layer, bind. simpl. unfold bind, queue, ret. simpl.
  rewrite <- !app_assoc. reflexivity.
Qed.

Lemma layers_tape (weights : list (list (list R))) (q : list Op) :
  forallb layer_shape weights = true ->
  for_each weights layer q = Some (tt, q ++ flat_map layer_gates weights).
Proof.
  revert q. induction weights as [|lw weights IH]; intros q Hs.
  - simpl. rewrite app_nil_r. reflexivity.
  - simpl in Hs. apply andb_true_iff in Hs as [Hl Hs].
    cbn [for_each flat_map]. unfold bind.
    rewrite (layer_tape lw q Hl), (IH _ Hs), <- app_assoc. reflexivity.
Qed.

Lemma circuit_tape (L : nat) (weights : list (list (list R))) (x : list Z) :
  has_shape L weights = true ->
  tape_of (circuit_qfunc weights x)
  = Some (expval_PauliZ 0,
          BasisState x [0; 1; 2; 3]%nat :: flat_map layer_gates weights).
Proof.
  intros Hs. apply andb_true_iff in Hs as [_ Hs].
  unfold tape_of, circuit_qfunc, state_preparation, bind, queue.
  cbn [app]. rewrite (layers_tape weights _ Hs). reflexivity.
Qed.

Lemma layer_gates_length (weights : list (list (list R))) :
  length (flat_map layer_gates weights) = (8 * length weights)%nat.
Proof.
  induction weights as [|lw weights IH].
  - reflexivity.
  - cbn [flat_map]. rewrite length_app, IH. cbn [layer_gates length]. lia.
Qed.

Lemma layer_gates_kinds (weights : list (list (list R))) :
  map kind (flat_map layer_gates weights)
  = concat (repeat layer_pattern (length weights)).
Proof.
  induction weights as [|lw weights IH].
  - reflexivity.
  - cbn [flat_map length repeat concat]. rewrite map_app, IH. reflexivity.
Qed.

Lemma layer_gates_valid (weights : list (list (list R))) :
  forallb (valid_on 4) (flat_map layer_gates weights) = true.
Proof.
  induction weights as [|lw weights IH].
  - reflexivity.
  - cbn [flat_map]. rewrite forallb_app, IH. reflexivity.
Qed.

(** C2: for weights of shape (L, 4, 3) the parity circuit has a depth
    fixed by L alone.  Its tape is the basis-state preparation followed
    by exactly L layers, each one [qml.Rot] on each of the wires 0, 1, 2,
    3 and then CNOT on (0,1), (1,2), (2,3), (3,0); the gates recorded
    after the preparation are the same for every input x. *)
Theorem parity_circuit_fixed_depth
    (L : nat) (weights : list (list (list R))) (x : list Z) :
  has_shape L weights = true ->
  exists gates : list Op,
    tape_of (circuit_qfunc weights x)
    = Some (expval_PauliZ 0, BasisState x [0; 1; 2; 3]%nat :: gates)
    /\ gates = flat_map layer_gates weights
    /\ length gates = (8 * L)%nat
    /\ map kind gates = concat (repeat layer_pattern L)
    /\ forall x' : list Z,
         tape_of (circuit_qfunc weights x')
         = Some (expval_PauliZ 0, BasisState x' [0; 1; 2; 3]%nat :: gates).
Proof.
  intros Hs. exists (flat_map layer_gates weights).
  pose proof Hs as Hs'. apply andb_true_iff in Hs' as [HL _].
  apply Nat.eqb_eq in HL. subst L.
  split; [apply (circuit_tape _ _ _ Hs)|].
  split; [reflexivity|].
  split; [apply layer_gates_length|].
  split; [apply layer_gates_kinds|].
  intros x'. apply (circuit_tape _ _ _ Hs).
Qed.

Lemma parity_circuit_fixed_depth_witness :
  has_shape 2 [[[0; 0; 0]; [0; 0; 0]; [0; 0; 0]; [0; 0; 0]];
               [[1; 2; 3]; [1; 2; 3]; [1; 2; 3]; [1; 2; 3]]] = true
  /\ exists gates : list Op,
      length gates = 16%nat
      /\ map kind gates = layer_pattern ++ layer_pattern.
Proof.
  split; [reflexivity|].
  destruct (parity_circuit_fixed_depth 2
              [[[0; 0; 0]; [0; 0; 0]; [0; 0; 0]; [0; 0; 0]];
               [[1; 2; 3]; [1; 2; 3]; [1; 2; 3]; [1; 2; 3]]]
              [0; 1; 1; 0]%Z eq_refl) as (gates & _ & _ & Hl & Hk & _).
  exists gates. split; [exact Hl | exact Hk].
Defined.

Lemma lin2_01 {n : nat} (a b : St n) : lin2 C0 C1 a b = b.
Proof.
  unfold lin2. induction n as [|n IH]; simpl.
  - destruct a, b. unfold Cadd, Cmul, C0, C1; simpl. f_equal; ring.
  - destruct a as [a1 a2], b as [b1 b2]; simpl. rewrite !IH. reflexivity.
Qed.

Lemma lin2_10 {n : nat} (a b : St n) : lin2 C1 C0 a b = a.
Proof.
  unfold lin2. induction n as [|n IH]; simpl.
  - destruct a, b. unfold Cadd, Cmul, C0, C1; simpl. f_equal; ring.
  - destruct a as [a1 a2], b as [b1 b2]; simpl. rewrite !IH. reflexivity.
Qed.

Lemma apply1_X_0 {n : nat} (a b : St n) :
  @apply1 (S n) X_mat 0 (a, b) = (b, a).
Proof.
  simpl. rewrite lin2_01, lin2_10. reflexivity.
Qed.

Lemma apply1_vzero {n : nat} (U : Mat2) (k : nat) :
  apply1 U k (vzero n) = vzero n.
Proof.
  revert k. induction n as [|n IH]; intros k.
  - reflexivity.
  - destruct k as [|k]; simpl.
    + rewrite !lin2_zero. reflexivity.
    + rewrite !IH. reflexivity.
Qed.

Lemma flip_bits_vzero {n : nat} (x : list Z) (wires : list nat) :
  flip_bits x wires (vzero n) = vzero n.
Proof.
  revert wires. induction x as [|b x IH]; intros wires.
  - reflexivity.
  - destruct wires as [|w wires]; simpl.
    + reflexivity.
    + destruct (Z.eqb b 1); rewrite ?apply1_vzero; apply IH.
Qed.

Lemma flip_bits_shift {n : nat} (x : list Z) (wires : list nat) (a b : St n) :
  @flip_bits (S n) x (map S wires) (a, b)
  = (flip_bits x wires a, flip_bits x wires b).
Proof.
  revert wires a b. induction x as [|v x IH]; intros wires a b.
  - reflexivity.
  - destruct wires as [|w wires]; cbn [map flip_bits].
    + reflexivity.
    + destruct (Z.eqb v 1).
      * cbn [apply1 fst snd]. apply IH.
      * apply IH.
Qed.

(** preparing a bit string on all the wires of a fresh device gives its
    basis state *)
Lemma flip_bits_ket0 (n : nat) (x : list Z) :
  length x = n ->
  flip_bits x (seq 0 n) (ket0 n) = ket n (map (fun b => Z.eqb b 1) x).
Proof.
  revert x. induction n as [|n IH]; intros x Hl.
  - destruct x; [reflexivity | discriminate].
  - destruct x as [|b x]; [discriminate|]. injection Hl as Hl.
    cbn [seq]. rewrite <- seq_shift. cbn [flip_bits map ket ket0].
    destruct (Z.eqb b 1).
    + rewrite apply1_X_0, flip_bits_shift, flip_bits_vzero, (IH x Hl).
      reflexivity.
    + rewrite flip_bits_shift, flip_bits_vzero, (IH x Hl). reflexivity.
Qed.

Lemma circuit_value (L : nat) (weights : list (list (list R))) (x : list Z) :
  has_shape L weights = true ->
  four_bits x = true ->
  circuit weights x
  = Some (expvalZ 0 (evolve (flat_map layer_gates weights)
                            (ket 4 (map (fun b => Z.eqb b 1) x)))).
Proof.
  intros Hs Hx. unfold circuit, qnode. rewrite (circuit_tape L weights x Hs).
  unfold execute, num_wires.
  rewrite execute_from_valid.
  - cbn [evolve fold_left action measure Nat.ltb Nat.leb].
    unfold four_bits in Hx. apply andb_true_iff in Hx as [Hl _].
    apply Nat.eqb_eq in Hl.
    change [0; 1; 2; 3]%nat with (seq 0 4).
    rewrite (flip_bits_ket0 4 x Hl). reflexivity.
  - cbn [forallb]. rewrite layer_gates_valid.
    unfold four_bits in Hx. cbn [valid_on length].
    apply andb_true_iff in Hx as [Hl Hb]. rewrite Hl, Hb. reflexivity.
Qed.

(** C1: for weights of shape (L, 4, 3), a bias and a 4-bit input x,
    [variational_classifier(weights, bias, x)] is [circuit(weights, x)]
    plus the bias and nothing else, where [circuit] prepares the basis
    state of x first, then applies the parameterized layers, then takes
    the expectation value of PauliZ on wire 0. *)
Theorem variational_classifier_is_circuit_plus_bias
    (L : nat) (weights : list (list (list R))) (bias : R) (x : list Z) :
  has_shape L weights = true ->
  four_bits x = true ->
  tape_of (circuit_qfunc weights x)
  = Some (expval_PauliZ 0,
          BasisState x [0; 1; 2; 3]%nat :: flat_map layer_gates weights)
  /\ circuit weights x
     = Some (expvalZ 0 (evolve (flat_map layer_gates weights)
                               (ket 4 (map (fun b => Z.eqb b 1) x))))
  /\ variational_classifier weights bias x
     = option_map (fun v => v + bias) (circuit weights x).
Proof.
  intros Hs Hx. split; [apply (circuit_tape L), Hs|].
  split; [apply (circuit_value L), Hx; exact Hs|].
  unfold variational_classifier. destruct (circuit weights x); reflexivity.
Qed.

Lemma variational_classifier_is_circuit_plus_bias_witness :
  has_shape 1 [[[0; 0; 0]; [0; 0; 0]; [0; 0; 0]; [0; 0; 0]]] = true
  /\ four_bits [0; 1; 0; 1]%Z = true
  /\ variational_classifier
       [[[0; 0; 0]; [0; 0; 0]; [0; 0; 0]; [0; 0; 0]]] (1 / 2) [0; 1; 0; 1]%Z
     = option_map (fun v => v + 1 / 2)
         (circuit [[[0; 0; 0]; [0; 0; 0]; [0; 0; 0]; [0; 0; 0]]] [0; 1; 0; 1]%Z).
Proof.
  split; [reflexivity|]. split; [reflexivity|].
  apply (variational_classifier_is_circuit_plus_bias 1
           [[[0; 0; 0]; [0; 0; 0]; [0; 0; 0]; [0; 0; 0]]] (1 / 2)
           [0; 1; 0; 1]%Z eq_refl eq_refl).
Defined.

(** ** Loss and accuracy *)

Lemma zip_with_length {A B D : Type} (f : A -> B -> D) (a : list A) (b : list B) :
  length a = length b -> length (zip_with f a b) = length a.
Proof.
  revert b. induction a as [|x a IH]; intros [|y b] E; simpl in *;
    try discriminate; auto.
Qed.

Lemma sum_squares (labels predictions : list R) :
  np_sum (map (fun v => v ^ 2) (zip_with Rminus labels predictions))
  = sum_sq_diff labels predictions.
Proof.
  revert predictions. induction labels as [|l labels IH]; intros [|p predictions];
    simpl; try reflexivity.
  unfold np_sum in IH. rewrite IH. reflexivity.
Qed.

Lemma sum_sq_diff_nonneg (labels predictions : list R) :
  0 <= sum_sq_diff labels predictions.
Proof.
  revert predictions. induction labels as [|l labels IH]; intros [|p predictions];
    simpl; try lra.
  pose proof (IH predictions). pose proof (pow2_ge_0 (l - p)). lra.
Qed.

Lemma square_loss_equal_length (labels predictions : list R) :
  length labels = length predictions ->
  labels <> [] ->
  square_loss labels predictions
  = Some (sum_sq_diff labels predictions / INR (length labels)).
Proof.
  intros El Hne. unfold square_loss, stack.
  destruct predictions as [|p predictions].
  - destruct labels; [congruence | discriminate].
  - unfold np_sub. rewrite (proj2 (Nat.eqb_eq _ _) El).
    destruct labels as [|l labels]; [congruence|].
    cbn [zip_with map np_mean]. injection El as El.
    f_equal. f_equal.
    + change (np_sum (map (fun v => v ^ 2)
                          (zip_with Rminus (l :: labels) (p :: predictions)))
              = sum_sq_diff (l :: labels) (p :: predictions)).
      apply sum_squares.
    + cbn [length]. rewrite length_map, zip_with_length by exact El. reflexivity.
Qed.

Lemma comprehension_Forall2 {A B : Type} (f : A -> option B)
    (l : list A) (bs : list B) :
  comprehension f l = Some bs <-> Forall2 (fun a b => f a = Some b) l bs.
Proof.
  revert bs. induction l as [|a l IH]; intros bs; simpl.
  - split.
    + intros E. injection E as <-. constructor.
    + intros F. inversion F. reflexivity.
  - split.
    + destruct (f a) as [b|] eqn:Ea; [|discriminate].
      destruct (comprehension f l) as [bs'|] eqn:El; [|discriminate].
      intros E. injection E as <-. constructor; [exact Ea | apply IH; reflexivity].
    + intros F. inversion F as [|a' b l' bs' Ea F']; subst.
      rewrite Ea. apply IH in F'. rewrite F'. reflexivity.
Qed.

(** C5 fails on empty sequences: there is nothing to stack and no mean *)
Lemma square_loss_empty :
  length (@nil R) = length (@nil R) /\ square_loss [] [] = None.
Proof. split; reflexivity. Qed.

(** C5, amended: for equal-length, non-empty [labels] and [predictions],
    [square_loss] returns the mean of the squared differences,
    (1/n) * sum_i (labels[i] - predictions[i])^2, which is non-negative;
    and [cost(weights, bias, X, Y)] is [square_loss] applied to Y and the
    list of the classifier outputs for each x in X. *)
Theorem square_loss_is_mean_squared_difference
    (labels predictions : list R) :
  length labels = length predictions ->
  labels <> [] ->
  (exists v : R,
      square_loss labels predictions = Some v
      /\ v = 1 / INR (length labels) * sum_sq_diff labels predictions
      /\ 0 <= v)
  /\ (forall (weights : list (list (list R))) (bias : R)
             (X : list (list Z)) (Y outputs : list R),
         Forall2 (fun x p => variational_classifier weights bias x = Some p)
                 X outputs ->
         cost weights bias X Y = square_loss Y outputs).
Proof.
  intros El Hne. split.
  - exists (sum_sq_diff labels predictions / INR (length labels)).
    split; [apply square_loss_equal_length; assumption|].
    assert (Hn : 0 < INR (length labels)).
    { apply lt_0_INR. destruct labels; [congruence | simpl; lia]. }
    split.
    + unfold Rdiv. ring.
    + apply Rmult_le_pos.
      * apply sum_sq_diff_nonneg.
      * left. apply Rinv_0_lt_compat, Hn.
  - intros weights bias X Y outputs F. unfold cost.
    apply comprehension_Forall2 in F. rewrite F. reflexivity.
Qed.

Lemma square_loss_is_mean_squared_difference_witness :
  exists v : R,
    square_loss [1; -1] [1 / 2; 0] = Some v
    /\ v = 1 / INR 2 * sum_sq_diff [1; -1] [1 / 2; 0]
    /\ 0 <= v.
Proof.
  apply (square_loss_is_mean_squared_difference [1; -1] [1 / 2; 0] eq_refl).
  discriminate.
Defined.

Lemma count_close_filter (labels predictions : list R) :
  count_close labels predictions
  = length (filter is_close (combine labels predictions)).
Proof.
  revert predictions. induction labels as [|l labels IH]; intros [|p predictions];
    simpl; try reflexivity.
  unfold is_close at 1. simpl.
  destruct (Rlt_dec (Rabs (l - p)) (1 / 100000)); simpl; rewrite IH; reflexivity.
Qed.

Lemma count_close_bound (labels predictions : list R) :
  (count_close labels predictions
   <= Nat.min (length labels) (length predictions))%nat.
Proof.
  rewrite count_close_filter.
  etransitivity; [apply filter_length_le|].
  rewrite length_combine. reflexivity.
Qed.

(** C10: for non-empty [labels], [accuracy(labels, predictions)] is the
    number of zipped pairs with |labels[i] - predictions[i]| < 1e-5
    divided by [len(labels)].  It lies in [0, 1] when [predictions] is at
    least as long as [labels]; when [predictions] is shorter, only the
    zipped pairs are counted (at most [len(predictions)] of them) while
    the divisor stays [len(labels)]. *)
Theorem accuracy_counts_zipped_pairs (labels predictions : list R) :
  labels <> [] ->
  exists acc : R,
    accuracy labels predictions = Some acc
    /\ acc = INR (length (filter is_close (combine labels predictions)))
             / INR (length labels)
    /\ ((length labels <= length predictions)%nat -> 0 <= acc <= 1)
    /\ ((length predictions < length labels)%nat ->
        combine labels predictions
        = combine (firstn (length predictions) labels) predictions
        /\ 0 <= acc <= INR (length predictions) / INR (length labels)).
Proof.
  intros Hne.
  assert (Hn : 0 < INR (length labels)).
  { apply lt_0_INR. destruct labels; [congruence | simpl; lia]. }
  pose proof (count_close_bound labels predictions) as Hb.
  rewrite count_close_filter in Hb.
  set (k := length (filter is_close (combine labels predictions))) in *.
  exists (INR k / INR (length labels)).
  assert (H0 : 0 <= INR k / INR (length labels)).
  { apply Rmult_le_pos; [apply pos_INR | left; apply Rinv_0_lt_compat, Hn]. }
  assert (Hle : forall m : nat, (k <= m)%nat ->
                INR k / INR (length labels) <= INR m / INR (length labels)).
  { intros m Hm. apply Rmult_le_compat_r.
    - left. apply Rinv_0_lt_compat, Hn.
    - apply le_INR, Hm. }
  split.
  - unfold accuracy. rewrite count_close_filter. fold k.
    destruct labels; [congruence | reflexivity].
  - split; [reflexivity|]. split.
    + intros Hl. split; [exact H0|].
      replace 1 with (INR (length labels) / INR (length labels))
        by (field; lra).
      apply Hle. lia.
    + intros Hl. split.
      * apply combine_firstn_r.
      * split; [exact H0 | apply Hle; lia].
Qed.

Lemma accuracy_counts_zipped_pairs_witness :
  exists acc : R,
    accuracy [1; -1; 1] [1; 1] = Some acc
    /\ acc = INR (length (filter is_close (combine [1; -1; 1] [1; 1])))
             / INR 3.
Proof.
  destruct (accuracy_counts_zipped_pairs [1; -1; 1] [1; 1])
    as (acc & Ha & Hv & _).
  - discriminate.
  - exists acc. split; [exact Ha | exact Hv].
Defined.

(** ** Normalising a qubit state *)

Lemma Cnorm2_pos (a : C) : a <> C0 -> 0 < Cnorm2 a.
Proof.
  destruct a as [x y]. unfold Cnorm2, C0; simpl. intros Hne.
  destruct (Req_dec_T x 0) as [-> | Hx].
  - destruct (Req_dec_T y 0) as [-> | Hy]; [congruence | nra].
  - nra.
Qed.

Lemma Cnorm2_Cdivr (a : C) (r : R) :
  r <> 0 -> Cnorm2 (Cdivr a r) = Cnorm2 a / (r * r).
Proof.
  intros Hr. unfold Cnorm2, Cdivr; simpl. field. exact Hr.
Qed.

Lemma Cdivr_scale (a : C) (r : R) : Cdivr a r = Cmul (RtoC (/ r)) a.
Proof.
  unfold Cdivr, Cmul, RtoC; simpl. f_equal; unfold Rdiv; ring.
Qed.

(** *** Storing a result as a double *)

Lemma nearest_even_small (y : R) : Rabs y < 1 / 2 -> nearest_even y = 0%Z.
Proof.
  intros Hy. unfold nearest_even.
  destruct (Rle_dec 0 y) as [Hpos | Hneg].
  - rewrite Rabs_right in Hy by lra.
    replace (up y) with 1%Z by (apply tech_up; simpl; lra).
    change (1 - 1)%Z with 0%Z. cbv zeta.
    destruct (Rlt_dec (y - 0) (1 / 2)) as [_ | Hn]; [reflexivity | lra].
  - rewrite Rabs_left in Hy by lra.
    replace (up y) with 0%Z by (apply tech_up; simpl; lra).
    change (0 - 1)%Z with (-1)%Z. cbv zeta.
    destruct (Rlt_dec (y - -1) (1 / 2)) as [Hl | _]; [lra|].
    destruct (Rlt_dec (1 / 2) (y - -1)) as [_ | Hn]; [reflexivity | lra].
Qed.

Lemma fl_underflow (x : R) : Rabs x * 2 < min_subnormal -> fl x = Some 0.
Proof.
  intros Hx. unfold fl.
  pose proof (Rabs_pos x) as H0.
  destruct (Rle_dec overflow_threshold (Rabs x)) as [Ho | _].
  { exfalso. unfold overflow_threshold, min_subnormal in *. lra. }
  destruct (Rlt_dec (Rabs x) min_normal) as [_ | Hn].
  - rewrite nearest_even_small; [f_equal; lra|].
    unfold Rdiv. rewrite Rabs_mult.
    rewrite (Rabs_right (/ min_subnormal)).
    + unfold min_subnormal in *. rewrite Rinv_inv. lra.
    + unfold min_subnormal. rewrite Rinv_inv. lra.
  - exfalso. unfold min_normal, min_subnormal in *. lra.
Qed.

Lemma fl_zero (x : R) : x = 0 -> fl x = Some 0.
Proof.
  intros ->. apply fl_underflow. rewrite Rabs_R0. unfold min_subnormal. lra.
Qed.


Lemma fl_exact (x : R) :
  x = 0 \/ min_normal <= Rabs x -> Rabs x < 2 ^ 1023 -> fl x = Some x.
Proof.
  intros [-> | Hlo] Hhi.
  - apply fl_zero. reflexivity.
  - unfold fl.
    destruct (Rle_dec overflow_threshold (Rabs x)) as [Ho | _].
    { exfalso. unfold overflow_threshold in Ho. lra. }
    destruct (Rlt_dec (Rabs x) min_normal) as [Hl | _]; [lra | reflexivity].
Qed.

Lemma square_lt (u v : R) : 0 <= u -> 0 <= v -> u * u < v * v -> u < v.
Proof. intros Hu Hv H. nra. Qed.

Lemma square_le (u v : R) : 0 <= u -> 0 <= v -> u * u <= v * v -> u <= v.
Proof. intros Hu Hv H. nra. Qed.

Lemma square_in_range_fl (x : R) :
  square_in_range x -> x * x < 2 ^ 1023 -> fl (x * x) = Some (x * x).
Proof.
  intros Hx Hhi. assert (H0 : 0 <= x * x) by nra.
  apply fl_exact.
  - destruct Hx as [-> | Hx]; [left; ring | right].
    rewrite Rabs_right by lra. exact Hx.
  - rewrite Rabs_right by lra. exact Hhi.
Qed.

Lemma sq_sum_pair (x y : R) :
  square_in_range x -> square_in_range y -> x * x + y * y < 2 ^ 1023 ->
  sq_sum [x; y] = Some (x * x + y * y).
Proof.
  intros Hx Hy Hhi.
  assert (H0x : 0 <= x * x) by nra. assert (H0y : 0 <= y * y) by nra.
  unfold sq_sum. cbn [fold_left].
  rewrite (square_in_range_fl x Hx) by lra. rewrite Rplus_0_l.
  rewrite (square_in_range_fl x Hx) by lra.
  rewrite (square_in_range_fl y Hy) by lra.
  apply fl_exact.
  - destruct Hx as [-> | Hx].
    + destruct Hy as [-> | Hy]; [left; ring | right].
      rewrite Rabs_right by lra. lra.
    + right. rewrite Rabs_right by lra. lra.
  - rewrite Rabs_right by lra. exact Hhi.
Qed.

Lemma quotient_in_range (x S : R) :
  square_in_range x -> x * x <= S -> 0 < S -> S < 2 ^ 1022 ->
  fl (x / sqrt S) = Some (x / sqrt S).
Proof.
  intros Hx Hle HS Hhi.
  assert (Hr : 0 < sqrt S) by (apply sqrt_lt_R0, HS).
  assert (Hrr : sqrt S * sqrt S = S) by (apply sqrt_sqrt; lra).
  assert (Habs : Rabs (x / sqrt S) = Rabs x / sqrt S).
  { unfold Rdiv. rewrite Rabs_mult, (Rabs_right (/ sqrt S)); [reflexivity|].
    apply Rle_ge. left. apply Rinv_0_lt_compat, Hr. }
  assert (Hxx : Rabs x * Rabs x = x * x).
  { unfold Rabs. destruct (Rcase_abs x); ring. }
  assert (Hx1 : Rabs x <= sqrt S).
  { apply square_le; [apply Rabs_pos | lra | lra]. }
  apply fl_exact.
  - destruct Hx as [-> | Hx]; [left; unfold Rdiv; ring | right].
    rewrite Habs.
    assert (Hlo : / 2 ^ 511 <= Rabs x).
    { apply square_le; [lra | apply Rabs_pos|].
      rewrite Hxx. unfold min_normal in Hx. lra. }
    assert (Hup : sqrt S < 2 ^ 511).
    { apply square_lt; [lra | lra|]. rewrite Hrr. lra. }
    apply Rle_trans with (/ 2 ^ 511 / 2 ^ 511); [unfold min_normal; lra|].
    apply Rle_trans with (/ 2 ^ 511 / sqrt S).
    + unfold Rdiv. apply Rmult_le_compat_l; [lra|].
      apply Rinv_le_contravar; lra.
    + unfold Rdiv. apply Rmult_le_compat_r; [|exact Hlo].
      left. apply Rinv_0_lt_compat, Hr.
  - rewrite Habs. apply Rle_lt_trans with 1; [|lra].
    apply Rmult_le_reg_r with (sqrt S); [exact Hr|].
    unfold Rdiv. rewrite Rmult_assoc, Rinv_l by lra. lra.
Qed.

Lemma normalize_state_in_range (alpha beta : C) :
  in_range alpha beta ->
  alpha <> C0 \/ beta <> C0 ->
  exists (psi : list C) (k : R),
    AllAboutQubits.normalize_state alpha beta = Some psi
    /\ AllAboutQubits.norm psi = 1
    /\ 0 < k
    /\ psi = [Cmul (RtoC k) alpha; Cmul (RtoC k) beta].
Proof.
  intros (Ha & Hb & Hc & Hd & Hhi) Hne.
  set (S2 := Cnorm2 alpha + Cnorm2 beta) in *.
  assert (HS : 0 < S2).
  { unfold S2. pose proof (Cnorm2_nonneg alpha). pose proof (Cnorm2_nonneg beta).
    destruct Hne as [Hz | Hz].
    - pose proof (Cnorm2_pos alpha Hz). lra.
    - pose proof (Cnorm2_pos beta Hz). lra. }
  assert (Hr : 0 < sqrt S2) by (apply sqrt_lt_R0, HS).
  assert (Hrr : sqrt S2 * sqrt S2 = S2) by (apply sqrt_sqrt; lra).
  exists [Cdivr alpha (sqrt S2); Cdivr beta (sqrt S2)], (/ sqrt S2).
  split.
  - destruct alpha as [a b], beta as [c d].
    unfold Cnorm2 in S2. cbn [fst snd] in *.
    assert (H0a : 0 <= a * a) by nra. assert (H0b : 0 <= b * b) by nra.
    assert (H0c : 0 <= c * c) by nra. assert (H0d : 0 <= d * d) by nra.
    unfold AllAboutQubits.normalize_state, AllAboutQubits.linalg_norm.
    cbn [map fst snd].
    rewrite (sq_sum_pair a c Ha Hc) by (unfold S2 in Hhi; lra).
    rewrite (sq_sum_pair b d Hb Hd) by (unfold S2 in Hhi; lra).
    replace (a * a + c * c + (b * b + d * d)) with S2 by (unfold S2; ring).
    rewrite fl_exact; cycle 1.
    { right. rewrite Rabs_right by lra.
      unfold S2.
      destruct Ha as [-> | Ha]; [|lra]. destruct Hb as [-> | Hb]; [|lra].
      destruct Hc as [-> | Hc]; [|lra]. destruct Hd as [-> | Hd]; [|lra].
      exfalso. unfold S2 in HS. lra. }
    { rewrite Rabs_right by lra. lra. }
    cbn [option_map]. unfold AllAboutQubits.divide. cbn [fst snd].
    destruct (Req_dec_T (sqrt S2) 0) as [E | _]; [lra|].
    rewrite (quotient_in_range a S2 Ha), (quotient_in_range b S2 Hb),
      (quotient_in_range c S2 Hc), (quotient_in_range d S2 Hd)
      by (unfold S2 in *; lra).
    reflexivity.
  - split.
    + unfold AllAboutQubits.norm. cbn [map fold_right].
      rewrite !Cnorm2_Cdivr by lra. rewrite Hrr.
      replace (Cnorm2 alpha / S2 + (Cnorm2 beta / S2 + 0)) with 1.
      * apply sqrt_1.
      * unfold S2 in *. field. lra.
    + split.
      * apply Rinv_0_lt_compat, Hr.
      * rewrite !Cdivr_scale. reflexivity.
Qed.






Lemma in_range_one (b : C) : b = C1 \/ b = (0, 1) -> in_range C1 b.
Proof.
  intros [-> | ->]; unfold in_range, square_in_range, Cnorm2, C1, min_normal;
    cbn [fst snd]; repeat split; lra.
Qed.


(** ** Simulated measurements and the random generator *)

Lemma draw_outcomes_draws {G : Type} `{RandomState G}
    (prob_0 : R) (k : nat) (g : G) :
  AllAboutQubits.draw_outcomes prob_0 k g
  = (map (outcome_of prob_0) (draws k g), after k g).
Proof.
  revert g. induction k as [|k IH]; intros g; simpl.
  - reflexivity.
  - destruct (random g) as [x g1]. rewrite IH. reflexivity.
Qed.

Lemma sqrt_Cnorm2_sqr (a : C) : sqrt (Cnorm2 a) ^ 2 = Cnorm2 a.
Proof. apply pow2_sqrt, Cnorm2_nonneg. Qed.

Lemma measure_state_draws {G : Type} `{RandomState G}
    (a : C) (rest : list C) (num_meas : nat) (g : G) :
  AllAboutQubits.Codercise_I_1_3.measure_state (a :: rest) num_meas g
  = Some (map (outcome_of (Cnorm2 a)) (draws num_meas g), after num_meas g).
Proof.
  unfold AllAboutQubits.Codercise_I_1_3.measure_state.
  rewrite sqrt_Cnorm2_sqr, draw_outcomes_draws. reflexivity.
Qed.



Lemma choice01_normalised {G : Type} `{RandomState G}
    (p0 p1 : R) (size : nat) (g : G) :
  0 <= p0 -> 0 <= p1 -> p0 + p1 = 1 ->
  AllAboutQubits.Codercise_I_1_5.choice01 p0 p1 size g
  = Some (map (outcome_of p0) (draws size g), after size g).
Proof.
  intros H0 H1 Hs. unfold AllAboutQubits.Codercise_I_1_5.choice01.
  destruct (Rlt_dec p0 0) as [Hn | _]; [lra|].
  destruct (Rlt_dec p1 0) as [Hn | _]; [lra|].
  replace (p0 + p1 - 1) with 0 by lra. rewrite Rabs_R0.
  destruct (Rlt_dec (sqrt (/ 2 ^ 52)) 0) as [Hn | _].
  { pose proof (sqrt_pos (/ 2 ^ 52)). lra. }
  rewrite Hs. replace (p0 / 1) with p0 by field.
  rewrite draw_outcomes_draws. reflexivity.
Qed.


(** *** Recording a circuit *)

















(** ** The training loop *)

Section TrainingLoop.

Context {Opt G : Type} `{Optimizer Opt} `{RandomState G}.

Lemma randint_array_length (lo hi size : nat) (g g' : G) (index : list nat) :
  randint_array lo hi size g = Some (index, g') -> length index = size.
Proof.
  revert g index. induction size as [|k IH]; intros g index E; simpl in E.
  - injection E as <- _. reflexivity.
  - destruct (randint lo hi g) as [[i g1]|]; [|discriminate].
    destruct (randint_array lo hi k g1) as [[rest g2]|] eqn:Er; [|discriminate].
    injection E as <- <-. simpl. f_equal. apply (IH _ _ Er).
Qed.

Lemma take_in_range {A : Type} (a : list A) (index : list nat) (rows : list A) :
  take a index = Some rows ->
  Forall (fun i => (i < length a)%nat) index.
Proof.
  unfold take. intros E. apply comprehension_Forall2 in E.
  induction E as [|i row index rows Ei _ IH]; constructor.
  - apply nth_error_Some. congruence.
  - exact IH.
Qed.

Lemma iteration_frame (it : nat) (st : TrainState Opt G) :
  X (state_of (iteration it st)) = X st
  /\ Y (state_of (iteration it st)) = Y st
  /\ batch_size (state_of (iteration it st)) = batch_size st.
Proof.
  unfold iteration.
  destruct (randint_array 0 (length (X st)) (batch_size st) (rng st))
    as [[batch_index g]|]; [|auto].
  destruct (take (X st) batch_index) as [X_batch|]; [|simpl; auto].
  destruct (take (Y st) batch_index) as [Y_batch|]; [|simpl; auto].
  destruct (step (opt st) _ (weights st) (bias st)) as [[[w' b'] o']|];
    [|simpl; auto].
  destruct (report it _); simpl; auto.
Qed.

Lemma run_frame (k it : nat) (st : TrainState Opt G) :
  X (state_of (run k it st)) = X st
  /\ Y (state_of (run k it st)) = Y st
  /\ batch_size (state_of (run k it st)) = batch_size st.
Proof.
  revert it st. induction k as [|k IH]; intros it st; simpl.
  - auto.
  - pose proof (iteration_frame it st) as (HX & HY & Hb).
    destruct (iteration it st) as [st'|st']; simpl in *.
    + destruct (IH (S it) st') as (HX' & HY' & Hb'). repeat split; congruence.
    + auto.
Qed.

Lemma iteration_update (it : nat) (st st' : TrainState Opt G) :
  iteration it st = Completed st' ->
  exists (batch_index : list nat) (g : G) (X_batch : list (list Z))
         (Y_batch : list R) (opt' : Opt),
    randint_array 0 (length (X st)) (batch_size st) (rng st)
    = Some (batch_index, g)
    /\ length batch_index = batch_size st
    /\ Forall (fun i => (i < length (X st))%nat) batch_index
    /\ take (X st) batch_index = Some X_batch
    /\ take (Y st) batch_index = Some Y_batch
    /\ step (opt st) (fun w b => cost w b X_batch Y_batch)
            (weights st) (bias st)
       = Some (weights st', bias st', opt').
Proof.
  unfold iteration. intros E.
  destruct (randint_array 0 (length (X st)) (batch_size st) (rng st))
    as [[batch_index g]|] eqn:Ei; [|discriminate].
  destruct (take (X st) batch_index) as [X_batch|] eqn:EX; [|discriminate].
  destruct (take (Y st) batch_index) as [Y_batch|] eqn:EY; [|discriminate].
  destruct (step (opt st) _ (weights st) (bias st)) as [[[w' b'] o']|] eqn:Es;
    [|discriminate].
  destruct (report it _); [|discriminate].
  injection E as <-. simpl.
  exists batch_index, g, X_batch, Y_batch, o'.
  split; [reflexivity|].
  split; [apply (randint_array_length _ _ _ _ _ _ Ei)|].
  split; [apply (take_in_range _ _ _ EX)|].
  auto.
Qed.

(** C6: in the 60-step loop of the parity classifier, with batches of 5,
    no iteration changes the training inputs X, the labels Y or the batch
    size, whether the loop runs to its end or stops at a raising call;
    and an iteration that completes replaces the weights and the bias by
    the result of one optimizer step on the cost of a batch, the rows of
    X and Y at 5 indices drawn one by one from [0, len(X)) (so a row may
    be drawn more than once). *)
Theorem training_loop_updates_only_parameters
    (weights_init : list (list (list R))) (bias_init : R)
    (X0 : list (list Z)) (Y0 : list R) (opt0 : Opt) (g0 : G) :
  (forall k : nat,
      let st := state_of (run k 0 (mkTrain weights_init bias_init X0 Y0 5
                                           opt0 g0 [])) in
      X st = X0 /\ Y st = Y0 /\ batch_size st = 5%nat)
  /\ (let st := state_of (training_loop weights_init bias_init X0 Y0 opt0 g0) in
      X st = X0 /\ Y st = Y0 /\ batch_size st = 5%nat)
  /\ (forall (k : nat) (st st' : TrainState Opt G),
         run k 0 (mkTrain weights_init bias_init X0 Y0 5 opt0 g0 [])
         = Completed st ->
         iteration k st = Completed st' ->
         X st' = X0 /\ Y st' = Y0 /\ batch_size st' = 5%nat
         /\ exists (batch_index : list nat) (g : G)
                   (X_batch : list (list Z)) (Y_batch : list R) (opt' : Opt),
             randint_array 0 (length X0) 5 (rng st) = Some (batch_index, g)
             /\ length batch_index = 5%nat
             /\ Forall (fun i => (i < length X0)%nat) batch_index
             /\ take X0 batch_index = Some X_batch
             /\ take Y0 batch_index = Some Y_batch
             /\ step (opt st) (fun w b => cost w b X_batch Y_batch)
                     (weights st) (bias st)
                = Some (weights st', bias st', opt')).
Proof.
  split; [|split].
  - intros k. apply (run_frame k 0).
  - apply (run_frame 60 0).
  - intros k st st' Er Ei.
    pose proof (run_frame k 0 (mkTrain weights_init bias_init X0 Y0 5 opt0 g0 []))
      as (HX & HY & Hb).
    rewrite Er in HX, HY, Hb. simpl in HX, HY, Hb.
    pose proof (iteration_frame k st) as (HX' & HY' & Hb').
    rewrite Ei in HX', HY', Hb'. simpl in HX', HY', Hb'.
    split; [congruence|]. split; [congruence|]. split; [congruence|].
    destruct (iteration_update k st st' Ei)
      as (batch_index & g & X_batch & Y_batch & opt' & H1 & H2 & H3 & H4 & H5 & H6).
    rewrite HX, HY, Hb in *.
    exists batch_index, g, X_batch, Y_batch, opt'. auto 10.
Qed.

End TrainingLoop.

(** *** The monitoring half never raises on well-formed data *)

Lemma comprehension_total {A B : Type} (f : A -> option B) (l : list A) :
  Forall (fun a => exists b, f a = Some b) l ->
  exists bs, comprehension f l = Some bs /\ length bs = length l.
Proof.
  induction 1 as [|a l [b Ea] _ (bs & Ebs & Hl)]; simpl.
  - exists []. auto.
  - exists (b :: bs). rewrite Ea, Ebs. simpl. auto.
Qed.

Lemma classifier_total (L : nat) (weights : list (list (list R))) (bias : R)
    (x : list Z) :
  has_shape L weights = true ->
  four_bits x = true ->
  exists v, variational_classifier weights bias x = Some v.
Proof.
  intros Hs Hx. unfold variational_classifier.
  rewrite (circuit_value L weights x Hs Hx). eexists. reflexivity.
Qed.

Lemma report_total {Opt G : Type} (it L : nat) (st : TrainState Opt G) :
  has_shape L (weights st) = true ->
  forallb four_bits (X st) = true ->
  length (Y st) = length (X st) ->
  X st <> [] ->
  exists line, report it st = Some line.
Proof.
  intros Hs HX Hl Hne. unfold report.
  assert (HF : Forall (fun x => four_bits x = true) (X st)).
  { apply Forall_forall. apply forallb_forall. exact HX. }
  destruct (comprehension_total
              (fun x => option_map sign
                          (variational_classifier (weights st) (bias st) x))
              (X st)) as (predictions & Ep & _).
  { eapply Forall_impl; [|exact HF]. intros x Hx.
    destruct (classifier_total L (weights st) (bias st) x Hs Hx) as [v Ev].
    rewrite Ev. eexists. reflexivity. }
  rewrite Ep.
  destruct (comprehension_total
              (variational_classifier (weights st) (bias st)) (X st))
    as (outputs & Eo & Ho).
  { eapply Forall_impl; [|exact HF]. intros x Hx.
    apply (classifier_total L), Hx. exact Hs. }
  assert (HY : Y st <> []).
  { intros E. rewrite E in Hl. destruct (X st); [congruence | discriminate]. }
  unfold cost. rewrite Eo.
  rewrite square_loss_equal_length by congruence.
  unfold accuracy. destruct (Y st); [congruence|]. eexists. reflexivity.
Qed.

(** one iteration on two training rows, with the idle optimizer and the
    replayed generator: it completes, and every index drawn is 0 *)
Lemma iteration_example :
  exists line,
    iteration 0
      (mkTrain [[[0; 0; 0]; [0; 0; 0]; [0; 0; 0]; [0; 0; 0]]] 0
               [[0; 0; 0; 1]; [0; 1; 0; 1]]%Z [1; -1] 5 tt low_then_high [])
    = Completed
        (mkTrain [[[0; 0; 0]; [0; 0; 0]; [0; 0; 0]; [0; 0; 0]]] 0
                 [[0; 0; 0; 1]; [0; 1; 0; 1]]%Z [1; -1] 5 tt
                 (Nat.iter 5 advance low_then_high) [line]).
Proof.
  destruct (report_total 0 1
              (mkTrain [[[0; 0; 0]; [0; 0; 0]; [0; 0; 0]; [0; 0; 0]]] 0
                 [[0; 0; 0; 1]; [0; 1; 0; 1]]%Z [1; -1] 5 tt
                 (Nat.iter 5 advance low_then_high) []))
    as [line E]; try reflexivity; try discriminate.
  exists line. unfold iteration.
  cbn [X Y weights bias batch_size opt rng printed length].
  replace (randint_array 0 2 5 low_then_high)
    with (Some ([0; 0; 0; 0; 0]%nat, Nat.iter 5 advance low_then_high))
    by reflexivity.
  cbn [take comprehension nth_error step idle_Optimizer].
  rewrite E. reflexivity.
Qed.

Lemma training_loop_updates_only_parameters_witness :
  exists st' : TrainState unit replay,
    iteration 0
      (mkTrain [[[0; 0; 0]; [0; 0; 0]; [0; 0; 0]; [0; 0; 0]]] 0
               [[0; 0; 0; 1]; [0; 1; 0; 1]]%Z [1; -1] 5 tt low_then_high [])
    = Completed st'
    /\ X st' = [[0; 0; 0; 1]; [0; 1; 0; 1]]%Z
    /\ Y st' = [1; -1]
    /\ batch_size st' = 5%nat.
Proof.
  destruct iteration_example as [line E].
  eexists. split; [exact E|].
  destruct (proj2 (proj2 (training_loop_updates_only_parameters
                            [[[0; 0; 0]; [0; 0; 0]; [0; 0; 0]; [0; 0; 0]]] 0
                            [[0; 0; 0; 1]; [0; 1; 0; 1]]%Z [1; -1] tt
                            low_then_high))
              0%nat _ _ eq_refl E) as (HX & HY & Hb & _).
  auto.
Defined.

(* ------------------------------------------------------------------ *)
(** ** Further properties of the notebooks                             *)
(* ------------------------------------------------------------------ *)

(** *** Inner products *)

Lemma Cadd_assoc (a b c : C) : Cadd (Cadd a b) c = Cadd a (Cadd b c).
Proof. unfold Cadd; simpl. f_equal; ring. Qed.

Lemma Cadd_0_l (a : C) : Cadd C0 a = a.
Proof. destruct a. unfold Cadd, C0; simpl. f_equal; ring. Qed.

Lemma Cadd_0_r (a : C) : Cadd a C0 = a.
Proof. destruct a. unfold Cadd, C0; simpl. f_equal; ring. Qed.

Lemma inner_product_loop_dot (acc : C) (state_1 state_2 : list C) :
  (length state_1 <= length state_2)%nat ->
  AllAboutQubits.Codercise_I_1_2.inner_product_loop acc state_1 state_2
  = Some (Cadd acc (dot state_1 state_2)).
Proof.
  revert acc state_2.
  induction state_1 as [|a state_1 IH]; intros acc state_2 Hl; simpl.
  - destruct state_2; rewrite Cadd_0_r; reflexivity.
  - destruct state_2 as [|b state_2]; simpl in Hl; [lia|].
    rewrite IH by lia. rewrite Cadd_assoc. reflexivity.
Qed.

Lemma inner_product_loop_short (acc : C) (state_1 state_2 : list C) :
  (length state_2 < length state_1)%nat ->
  AllAboutQubits.Codercise_I_1_2.inner_product_loop acc state_1 state_2 = None.
Proof.
  revert acc state_2.
  induction state_1 as [|a state_1 IH]; intros acc state_2 Hl; simpl in *.
  - lia.
  - destruct state_2 as [|b state_2]; [reflexivity|].
    simpl in Hl. apply IH. lia.
Qed.

Lemma dot_firstn (state_1 state_2 : list C) :
  dot state_1 (firstn (length state_1) state_2) = dot state_1 state_2.
Proof.
  revert state_2. induction state_1 as [|a state_1 IH]; intros [|b state_2];
    simpl; try reflexivity.
  rewrite IH. reflexivity.
Qed.

(** X1: [inner_product(state_1, state_2)] raises exactly when [state_2]
    is shorter than [state_1]; otherwise it returns the sum of
    conj(state_1[i]) * state_2[i] over the indices of [state_1], and the
    entries of [state_2] beyond them play no part. *)
Theorem inner_product_raises_iff_second_shorter (state_1 state_2 : list C) :
  (AllAboutQubits.Codercise_I_1_2.inner_product state_1 state_2 = None
   <-> (length state_2 < length state_1)%nat)
  /\ ((length state_1 <= length state_2)%nat ->
      AllAboutQubits.Codercise_I_1_2.inner_product state_1 state_2
      = Some (dot state_1 state_2)
      /\ AllAboutQubits.Codercise_I_1_2.inner_product state_1 state_2
         = AllAboutQubits.Codercise_I_1_2.inner_product
             state_1 (firstn (length state_1) state_2)).
Proof.
  unfold AllAboutQubits.Codercise_I_1_2.inner_product.
  assert (Hok : (length state_1 <= length state_2)%nat ->
                AllAboutQubits.Codercise_I_1_2.inner_product_loop
                  C0 state_1 state_2 = Some (dot state_1 state_2)).
  { intros Hl. rewrite inner_product_loop_dot by exact Hl.
    rewrite Cadd_0_l. reflexivity. }
  split.
  - split.
    + intros E. destruct (Nat.lt_ge_cases (length state_2) (length state_1))
        as [Hlt | Hge]; [exact Hlt|].
      rewrite (Hok Hge) in E. discriminate.
    + apply inner_product_loop_short.
  - intros Hl. split; [apply Hok, Hl|].
    rewrite (Hok Hl), inner_product_loop_dot.
    + rewrite Cadd_0_l, dot_firstn. reflexivity.
    + rewrite length_firstn. lia.
Qed.

Lemma inner_product_raises_iff_second_shorter_witness :
  AllAboutQubits.Codercise_I_1_2.inner_product [C1; C0] [C0; C1; C1]
  = Some (dot [C1; C0] [C0; C1; C1]).
Proof.
  apply (proj2 (inner_product_raises_iff_second_shorter [C1; C0] [C0; C1; C1])).
  simpl. lia.
Defined.

Lemma Cconj_add (a b : C) : Cconj (Cadd a b) = Cadd (Cconj a) (Cconj b).
Proof. unfold Cconj, Cadd; simpl. f_equal; ring. Qed.

Lemma Cconj_mul_swap (a b : C) : Cconj (Cmul (Cconj a) b) = Cmul (Cconj b) a.
Proof. unfold Cconj, Cmul; simpl. f_equal; ring. Qed.

Lemma dot_conj (a b : list C) :
  length a = length b -> dot b a = Cconj (dot a b).
Proof.
  revert b. induction a as [|x a IH]; intros [|y b] Hl; simpl in *;
    try discriminate.
  - unfold Cconj, C0; simpl. f_equal; ring.
  - rewrite Cconj_add, Cconj_mul_swap, IH by lia. reflexivity.
Qed.

(** X2: on states of equal length the inner product is conjugate
    symmetric: <state_2|state_1> is the complex conjugate of
    <state_1|state_2>. *)
Theorem inner_product_conjugate_symmetric (state_1 state_2 : list C) :
  length state_1 = length state_2 ->
  AllAboutQubits.Codercise_I_1_2.inner_product state_2 state_1
  = option_map Cconj
      (AllAboutQubits.Codercise_I_1_2.inner_product state_1 state_2).
Proof.
  intros Hl. unfold AllAboutQubits.Codercise_I_1_2.inner_product.
  rewrite !inner_product_loop_dot by lia. simpl.
  rewrite !Cadd_0_l, (dot_conj state_1 state_2 Hl). reflexivity.
Qed.

Lemma inner_product_conjugate_symmetric_witness :
  AllAboutQubits.Codercise_I_1_2.inner_product [C0; (0, 1)] [C1; C1]
  = option_map Cconj
      (AllAboutQubits.Codercise_I_1_2.inner_product [C1; C1] [C0; (0, 1)]).
Proof.
  apply (inner_product_conjugate_symmetric [C1; C1] [C0; (0, 1)]).
  reflexivity.
Defined.

Lemma dot_self (psi : list C) :
  dot psi psi = RtoC (fold_right Rplus 0 (map Cnorm2 psi)).
Proof.
  induction psi as [|a psi IH]; simpl.
  - reflexivity.
  - rewrite IH. destruct a as [x y].
    unfold Cadd, Cmul, Cconj, Cnorm2, RtoC; simpl. f_equal; ring.
Qed.

(** X3: the state [normalize_state] returns is normalised for
    [inner_product]: for amplitudes that are not both zero and lie
    inside the normal range of doubles (the squares of their non-zero
    real and imaginary parts are at least 2^-1022 and add up to less
    than 2^1022), the inner product of the result with itself is 1. *)
Theorem normalized_state_has_unit_inner_product (alpha beta : C) :
  in_range alpha beta ->
  alpha <> C0 \/ beta <> C0 ->
  exists psi : list C,
    AllAboutQubits.normalize_state alpha beta = Some psi
    /\ AllAboutQubits.Codercise_I_1_2.inner_product psi psi = Some C1.
Proof.
  intros Hr Hne.
  destruct (normalize_state_in_range alpha beta Hr Hne)
    as (psi & k & E & Hn & _ & _).
  exists psi. split; [exact E|].
  unfold AllAboutQubits.Codercise_I_1_2.inner_product.
  rewrite inner_product_loop_dot by lia.
  rewrite Cadd_0_l, dot_self. f_equal. unfold C1, RtoC. f_equal.
  unfold AllAboutQubits.norm in Hn.
  set (S2 := fold_right Rplus 0 (map Cnorm2 psi)) in *.
  assert (H0 : 0 <= S2).
  { unfold S2. clear. induction psi as [|a psi IH]; simpl; [lra|].
    pose proof (Cnorm2_nonneg a). lra. }
  rewrite <- (sqrt_sqrt S2 H0), Hn. ring.
Qed.

Lemma normalized_state_has_unit_inner_product_witness :
  exists psi : list C,
    AllAboutQubits.normalize_state C1 (0, 1) = Some psi
    /\ AllAboutQubits.Codercise_I_1_2.inner_product psi psi = Some C1.
Proof.
  apply (normalized_state_has_unit_inner_product C1 (0, 1)).
  - apply in_range_one. right. reflexivity.
  - left. unfold C1, C0. intros E. injection E as E. lra.
Defined.

(** *** The Hadamard step of Codercises I.1.4 and I.1.5 *)

Lemma apply_u_twice (a b : C) :
  exists s' : list C,
    AllAboutQubits.Codercise_I_1_5.apply_u [a; b] = Some s'
    /\ AllAboutQubits.Codercise_I_1_5.apply_u s' = Some [a; b]
    /\ AllAboutQubits.norm s' = AllAboutQubits.norm [a; b].
Proof.
  destruct a as [a1 a2], b as [b1 b2].
  eexists. split; [reflexivity|].
  pose proof inv_sqrt2_sqr as Hr. revert Hr.
  unfold AllAboutQubits.Codercise_I_1_5.apply_u, AllAboutQubits.norm,
    AllAboutQubits.Codercise_I_1_5.U.
  cbn [m00 m01 m10 m11 map fold_right].
  unfold Cadd, Cmul, Cdivr, Copp, Cnorm2, C1, Rdiv; simpl.
  generalize (/ sqrt 2). intros r Hr.
  split.
  - f_equal. f_equal; [|f_equal]; f_equal.
    + transitivity (2 * (r * r) * a1); [ring | rewrite Hr; field].
    + transitivity (2 * (r * r) * a2); [ring | rewrite Hr; field].
    + transitivity (2 * (r * r) * b1); [ring | rewrite Hr; field].
    + transitivity (2 * (r * r) * b2); [ring | rewrite Hr; field].
  - f_equal.
    transitivity (2 * (r * r) * (a1 * a1 + a2 * a2 + (b1 * b1 + b2 * b2)));
      [ring | rewrite Hr; field].
Qed.

(** X4: [apply_u] is its own inverse and keeps the norm: on a state of
    two amplitudes, applying it twice gives the state back and the result
    has the norm of the input; a state of any other length raises. *)
Theorem apply_u_is_an_involution (state : list C) :
  (length state = 2%nat ->
   exists s' : list C,
     AllAboutQubits.Codercise_I_1_5.apply_u state = Some s'
     /\ AllAboutQubits.Codercise_I_1_5.apply_u s' = Some state
     /\ AllAboutQubits.norm s' = AllAboutQubits.norm state)
  /\ (length state <> 2%nat ->
      AllAboutQubits.Codercise_I_1_5.apply_u state = None).
Proof.
  split.
  - intros Hl. destruct state as [|a [|b [|c state]]]; try discriminate Hl.
    apply apply_u_twice.
  - intros Hl. destruct state as [|a [|b [|c state]]]; try reflexivity.
    simpl in Hl. congruence.
Qed.

Lemma apply_u_is_an_involution_witness :
  exists s' : list C,
    AllAboutQubits.Codercise_I_1_5.apply_u [C1; C0] = Some s'
    /\ AllAboutQubits.Codercise_I_1_5.apply_u s' = Some [C1; C0]
    /\ AllAboutQubits.norm s' = AllAboutQubits.norm [C1; C0].
Proof.
  apply (proj1 (apply_u_is_an_involution [C1; C0])). reflexivity.
Defined.

(** *** The two versions of [measure_state] *)

Lemma outcomes_are_bits (prob_0 : R) (xs : list R) :
  Forall (fun o => o = 0%Z \/ o = 1%Z) (map (outcome_of prob_0) xs).
Proof.
  induction xs as [|x xs IH]; simpl; constructor; [|exact IH].
  unfold outcome_of. destruct (Rlt_dec x prob_0); auto.
Qed.

Lemma draws_length {G : Type} `{RandomState G} (k : nat) (g : G) :
  length (draws k g) = k.
Proof.
  revert g. induction k as [|k IH]; intros g; simpl; [|rewrite IH]; reflexivity.
Qed.

(** X5: on a normalised state the two versions of [measure_state] agree:
    the one that samples through [np.random.choice] (Codercise I.1.5)
    returns, from the same generator, the outcomes of the explicit loop
    (Codercise I.1.3), [num_meas] of them, each 0 or 1. *)
Theorem measure_state_versions_agree {G : Type} `{RandomState G}
    (a b : C) (rest : list C) (num_meas : nat) (g : G) :
  Cnorm2 a + Cnorm2 b = 1 ->
  AllAboutQubits.Codercise_I_1_5.measure_state (a :: b :: rest) num_meas g
  = AllAboutQubits.Codercise_I_1_3.measure_state (a :: b :: rest) num_meas g
  /\ exists (outcomes : list Z) (g' : G),
      AllAboutQubits.Codercise_I_1_5.measure_state (a :: b :: rest) num_meas g
      = Some (outcomes, g')
      /\ length outcomes = num_meas
      /\ Forall (fun o => o = 0%Z \/ o = 1%Z) outcomes.
Proof.
  intros Hn.
  assert (E : AllAboutQubits.Codercise_I_1_5.measure_state
                (a :: b :: rest) num_meas g
              = Some (map (outcome_of (Cnorm2 a)) (draws num_meas g),
                      after num_meas g)).
  { unfold AllAboutQubits.Codercise_I_1_5.measure_state.
    rewrite !sqrt_Cnorm2_sqr.
    apply choice01_normalised; [apply Cnorm2_nonneg | apply Cnorm2_nonneg | exact Hn]. }
  split.
  - rewrite E, measure_state_draws. reflexivity.
  - eexists _, _. split; [exact E|]. split.
    + rewrite length_map. apply draws_length.
    + apply outcomes_are_bits.
Qed.

Lemma measure_state_versions_agree_witness :
  AllAboutQubits.Codercise_I_1_5.measure_state
    [RtoC (3 / 5); RtoC (4 / 5)] 3 low_then_high
  = AllAboutQubits.Codercise_I_1_3.measure_state
      [RtoC (3 / 5); RtoC (4 / 5)] 3 low_then_high.
Proof.
  apply (measure_state_versions_agree (RtoC (3 / 5)) (RtoC (4 / 5)) [] 3
           low_then_high).
  unfold Cnorm2, RtoC; simpl. lra.
Defined.

(** *** Expectation value from samples *)

Lemma count_samples_total (samples : list R) (plus minus : Z) :
  (fst (WhatDidYouExpect.count_samples samples plus minus)
   + snd (WhatDidYouExpect.count_samples samples plus minus)
   = plus + minus + Z.of_nat (length samples))%Z
  /\ (plus <= fst (WhatDidYouExpect.count_samples samples plus minus))%Z
  /\ (minus <= snd (WhatDidYouExpect.count_samples samples plus minus))%Z.
Proof.
  revert plus minus. induction samples as [|x samples IH]; intros plus minus.
  - simpl. lia.
  - cbn [WhatDidYouExpect.count_samples length].
    destruct (Req_dec_T x 1).
    + destruct (IH (plus + 1)%Z minus) as (E & Hp & Hm). lia.
    + destruct (IH plus (minus + 1)%Z) as (E & Hp & Hm). lia.
Qed.

Lemma count_samples_signs (samples : list R) (plus minus : Z) :
  Forall (fun x => x = 1 \/ x = -1) samples ->
  IZR (fst (WhatDidYouExpect.count_samples samples plus minus)
       - snd (WhatDidYouExpect.count_samples samples plus minus))
  = IZR (plus - minus) + fold_right Rplus 0 samples.
Proof.
  intros F. revert plus minus.
  induction F as [|x samples Hx _ IH]; intros plus minus.
  - simpl. ring.
  - cbn [WhatDidYouExpect.count_samples fold_right].
    destruct (Req_dec_T x 1) as [E1 | N1].
    + rewrite IH. subst x. rewrite minus_IZR, minus_IZR, plus_IZR. simpl. ring.
    + destruct Hx as [E | E]; [congruence|].
      rewrite IH. subst x. rewrite minus_IZR, minus_IZR, plus_IZR. simpl. ring.
Qed.

Lemma count_samples_filter (samples : list R) (plus minus : Z) :
  WhatDidYouExpect.count_samples samples plus minus
  = ((plus + Z.of_nat (length (filter is_one samples)))%Z,
     (minus + Z.of_nat (length (filter (fun x => negb (is_one x)) samples)))%Z).
Proof.
  revert plus minus. induction samples as [|x samples IH]; intros plus minus.
  - simpl. f_equal; lia.
  - cbn [WhatDidYouExpect.count_samples filter].
    assert (Ex : is_one x = if Req_dec_T x 1 then true else false)
      by reflexivity.
    destruct (Req_dec_T x 1); rewrite Ex, IH; cbn [negb length]; f_equal; lia.
Qed.

(** X9: [compute_expval_from_samples] divides by zero on an empty array
    of samples; on a non-empty one it returns the number of samples
    equal to 1 minus the number of samples that are not, over the number
    of samples (a sample that is not 1 counts as -1, whatever it is);
    that value lies between -1 and 1, and when every sample is +1 or -1
    it is the mean of the samples. *)
Theorem expval_from_samples_is_bounded_mean (samples : list R) :
  (samples = [] -> WhatDidYouExpect.compute_expval_from_samples samples = None)
  /\ (samples <> [] ->
      exists v : R,
        WhatDidYouExpect.compute_expval_from_samples samples = Some v
        /\ v = (INR (length (filter is_one samples))
                - INR (length (filter (fun x => negb (is_one x)) samples)))
               / INR (length samples)
        /\ -1 <= v <= 1
        /\ (Forall (fun x => x = 1 \/ x = -1) samples ->
            v = fold_right Rplus 0 samples / INR (length samples))).
Proof.
  split.
  - intros ->. reflexivity.
  - intros Hne. unfold WhatDidYouExpect.compute_expval_from_samples.
    pose proof (count_samples_total samples 0 0) as (Et & Hp & Hm).
    pose proof (count_samples_signs samples 0 0) as Es.
    pose proof (count_samples_filter samples 0 0) as Ef.
    destruct (WhatDidYouExpect.count_samples samples 0 0) as [plus minus].
    simpl in Et, Hp, Hm, Es. injection Ef as Ep Em.
    destruct samples as [|x samples]; [congruence|].
    set (n := length (x :: samples)) in *.
    assert (Hn : 0 < INR n) by (apply lt_0_INR; unfold n; simpl; lia).
    eexists. split; [reflexivity|].
    assert (Hv : IZR (-1 * minus + plus) = IZR plus - IZR minus).
    { rewrite plus_IZR, mult_IZR. simpl. ring. }
    assert (HN : INR n = IZR plus + IZR minus).
    { rewrite INR_IZR_INZ, <- plus_IZR. f_equal. lia. }
    assert (Hp' : 0 <= IZR plus) by (apply IZR_le; lia).
    assert (Hm' : 0 <= IZR minus) by (apply IZR_le; lia).
    split; [|split].
    + rewrite Hv, Ep, Em, !INR_IZR_INZ. reflexivity.
    + rewrite Hv. split.
      * apply Rmult_le_reg_r with (INR n); [exact Hn|].
        unfold Rdiv. rewrite Rmult_assoc, Rinv_l by lra. lra.
      * apply Rmult_le_reg_r with (INR n); [exact Hn|].
        unfold Rdiv. rewrite Rmult_assoc, Rinv_l by lra. lra.
    + intros F. specialize (Es F). rewrite Hv.
      rewrite minus_IZR in Es. unfold Rdiv. f_equal.
      change (IZR (0 - 0)) with 0 in Es. lra.
Qed.

Lemma expval_from_samples_is_bounded_mean_witness :
  exists v : R,
    WhatDidYouExpect.compute_expval_from_samples [1; -1; 0; 1; 3] = Some v
    /\ v = (INR (length (filter is_one [1; -1; 0; 1; 3]))
            - INR (length (filter (fun x => negb (is_one x)) [1; -1; 0; 1; 3])))
           / INR 5
    /\ -1 <= v <= 1.
Proof.
  destruct (proj2 (expval_from_samples_is_bounded_mean [1; -1; 0; 1; 3]))
    as (v & E & Hv & Hb & _).
  - discriminate.
  - exists v. split; [exact E | split; [exact Hv | exact Hb]].
Defined.

(** *** More on loss and accuracy *)

Lemma sum_of_squares_nonneg (d : list R) :
  0 <= np_sum (map (fun x => x ^ 2) d).
Proof.
  unfold np_sum. induction d as [|y d IH]; cbn [map fold_right]; [lra|].
  pose proof (pow2_ge_0 y). lra.
Qed.

Lemma np_mean_squares_nonneg (d : list R) (v : R) :
  np_mean (map (fun x => x ^ 2) d) = Some v -> 0 <= v.
Proof.
  pose proof (sum_of_squares_nonneg d) as H0.
  destruct d as [|x d]; [discriminate|].
  unfold np_mean. cbn [map] in *. intros E. injection E as <-.
  apply Rmult_le_pos; [exact H0|].
  left. apply Rinv_0_lt_compat.
  apply (lt_0_INR (length (x ^ 2 :: map (fun y => y ^ 2) d))).
  cbn [length]. lia.
Qed.

(** X10: [square_loss] returns a value exactly when both sequences are
    non-empty and either have the same length or one of them has length
    one (NumPy then broadcasts it); every value it returns is
    non-negative. *)
Theorem square_loss_defined_and_nonnegative (labels predictions : list R) :
  ((exists v, square_loss labels predictions = Some v)
   <-> labels <> [] /\ predictions <> []
       /\ (length labels = length predictions
           \/ length predictions = 1%nat \/ length labels = 1%nat))
  /\ (forall v, square_loss labels predictions = Some v -> 0 <= v).
Proof.
  split.
  - unfold square_loss, stack, np_sub.
    destruct predictions as [|p [|p' predictions]];
      destruct labels as [|l [|l' labels]];
      cbn [length Nat.eqb zip_with map np_mean];
      try (destruct (length labels =? length predictions)%nat eqn:El;
           [apply Nat.eqb_eq in El | apply Nat.eqb_neq in El];
           cbn [zip_with map np_mean]);
      (split;
       [ intros [v E];
         first [ discriminate E
               | split; [discriminate|]; split; [discriminate|];
                 cbn [length]; auto ]
       | intros (H1 & H2 & H3);
         first [ congruence
               | eexists; reflexivity
               | exfalso; cbn [length] in H3; lia ] ]).
  - intros v. unfold square_loss.
    destruct (stack predictions) as [stacked|]; [|discriminate].
    destruct (np_sub labels stacked) as [d|]; [|discriminate].
    apply np_mean_squares_nonneg.
Qed.

Lemma square_loss_defined_and_nonnegative_witness :
  0 <= sum_sq_diff [1; -1] [1 / 2; 0] / INR (length [1; -1]).
Proof.
  apply (proj2 (square_loss_defined_and_nonnegative [1; -1] [1 / 2; 0])).
  apply square_loss_equal_length; [reflexivity | discriminate].
Defined.

Lemma sum_sq_diff_zero (labels predictions : list R) :
  length labels = length predictions ->
  (sum_sq_diff labels predictions = 0 <-> labels = predictions).
Proof.
  revert predictions. induction labels as [|l labels IH]; intros [|p predictions] Hl;
    simpl in *; try discriminate.
  - split; reflexivity.
  - injection Hl as Hl. specialize (IH predictions Hl).
    pose proof (sum_sq_diff_nonneg labels predictions) as H0.
    pose proof (pow2_ge_0 (l - p)) as H1.
    split.
    + intros E.
      assert (E1 : (l - p) ^ 2 = 0) by lra.
      assert (E2 : sum_sq_diff labels predictions = 0) by lra.
      apply IH in E2. subst predictions.
      assert (l - p = 0) by (simpl in E1; nra).
      f_equal. lra.
    + intros E. injection E as -> E. apply IH in E. rewrite E.
      replace (p - p) with 0 by ring. simpl. ring.
Qed.

(** X11: for non-empty sequences of equal length, [square_loss] is zero
    exactly when the predictions equal the labels. *)
Theorem square_loss_zero_iff_equal (labels predictions : list R) :
  length labels = length predictions ->
  labels <> [] ->
  (square_loss labels predictions = Some 0 <-> labels = predictions).
Proof.
  intros Hl Hne. rewrite (square_loss_equal_length labels predictions Hl Hne).
  assert (Hn : 0 < INR (length labels)).
  { apply lt_0_INR. destruct labels; [congruence | simpl; lia]. }
  rewrite <- (sum_sq_diff_zero labels predictions Hl).
  split.
  - intros E. injection E as E.
    apply (Rmult_eq_compat_r (INR (length labels))) in E.
    unfold Rdiv in E. rewrite Rmult_assoc, Rinv_l in E by lra. lra.
  - intros ->. f_equal. unfold Rdiv. ring.
Qed.

Lemma square_loss_zero_iff_equal_witness :
  square_loss [1; -1; 1] [1; -1; 1] = Some 0 <-> [1; -1; 1] = [1; -1; 1].
Proof.
  apply (square_loss_zero_iff_equal [1; -1; 1] [1; -1; 1] eq_refl).
  discriminate.
Defined.

Lemma count_close_self (labels : list R) :
  count_close labels labels = length labels.
Proof.
  induction labels as [|l labels IH]; simpl; [reflexivity|].
  destruct (Rlt_dec (Rabs (l - l)) (1 / 100000)) as [_ | Hn].
  - rewrite IH. reflexivity.
  - exfalso. apply Hn. replace (l - l) with 0 by ring. rewrite Rabs_R0. lra.
Qed.

(** X12: [accuracy] divides by zero exactly when [labels] is empty, and
    predictions that equal the labels score 1. *)
Theorem accuracy_raises_on_empty_labels_and_is_one_on_match
    (labels predictions : list R) :
  (accuracy labels predictions = None <-> labels = [])
  /\ (labels <> [] -> accuracy labels labels = Some 1).
Proof.
  split.
  - unfold accuracy. destruct labels; simpl; split; congruence.
  - intros Hne. unfold accuracy. rewrite count_close_self.
    destruct labels as [|l labels]; [congruence|].
    cbn [length]. f_equal. field. apply not_0_INR. lia.
Qed.

Lemma accuracy_raises_on_empty_labels_and_is_one_on_match_witness :
  accuracy [1; -1] [1; -1] = Some 1.
Proof.
  apply (proj2 (accuracy_raises_on_empty_labels_and_is_one_on_match
                  [1; -1] [])).
  discriminate.
Defined.

(** *** Range and failures of the parity circuit *)

Lemma nrm2_ket (n : nat) (bits : list bool) : nrm2 (ket n bits) = 1.
Proof.
  revert bits. induction n as [|n IH]; intros bits; simpl.
  - unfold Cnorm2, C1; simpl. ring.
  - destruct bits as [|[|] bits]; simpl; rewrite IH, nrm2_vzero; ring.
Qed.

Lemma evolve_norm {n : nat} (ops : list Op) (s : St n) :
  forallb (valid_on n) ops = true -> nrm2 (evolve ops s) = nrm2 s.
Proof.
  intros Hv. apply (execute_from_norm ops).
  apply execute_from_valid, Hv.
Qed.

Lemma expvalZ_0_bound {n : nat} (s : St (S n)) :
  nrm2 s = 1 -> -1 <= expvalZ 0 s <= 1.
Proof.
  destruct s as [a b]. simpl. intros E.
  pose proof (nrm2_nonneg a). pose proof (nrm2_nonneg b). lra.
Qed.

(** X13: for weights of shape (L, 4, 3) and a 4-bit input the circuit
    returns an expectation value between -1 and 1, so the classifier's
    output lies within 1 of the bias. *)
Theorem circuit_value_between_minus_one_and_one
    (L : nat) (weights : list (list (list R))) (bias : R) (x : list Z) :
  has_shape L weights = true ->
  four_bits x = true ->
  exists v : R,
    circuit weights x = Some v
    /\ -1 <= v <= 1
    /\ variational_classifier weights bias x = Some (v + bias)
    /\ bias - 1 <= v + bias <= bias + 1.
Proof.
  intros Hs Hx. eexists. split; [apply (circuit_value L), Hx; exact Hs|].
  assert (Hb : -1 <= expvalZ 0 (evolve (flat_map layer_gates weights)
                                   (ket 4 (map (fun b => Z.eqb b 1) x))) <= 1).
  { apply (@expvalZ_0_bound 3).
    rewrite evolve_norm by apply layer_gates_valid. apply nrm2_ket. }
  split; [exact Hb|]. split.
  - unfold variational_classifier.
    rewrite (circuit_value L weights x Hs Hx). reflexivity.
  - lra.
Qed.

Lemma circuit_value_between_minus_one_and_one_witness :
  exists v : R,
    circuit [[[1; 2; 3]; [1; 2; 3]; [1; 2; 3]; [1; 2; 3]]] [1; 1; 0; 1]%Z
    = Some v
    /\ -1 <= v <= 1.
Proof.
  destruct (circuit_value_between_minus_one_and_one 1
              [[[1; 2; 3]; [1; 2; 3]; [1; 2; 3]; [1; 2; 3]]] 0
              [1; 1; 0; 1]%Z eq_refl eq_refl) as (v & E & Hb & _).
  exists v. split; [exact E | exact Hb].
Defined.

Lemma rot_on_run (layer_weights : list (list R)) (wire : nat) (q : list Op) :
  rot_on layer_weights wire q
  = if row_ok (nth_error layer_weights wire)
    then Some (tt, q ++ [rot_of (nth wire layer_weights []) wire])
    else None.
Proof.
  unfold rot_on, row_ok.
  destruct (nth_error layer_weights wire) as [row|] eqn:E; [|reflexivity].
  rewrite (nth_error_nth layer_weights wire [] E).
  destruct row as [|a [|b [|c [|d row]]]]; reflexivity.
Qed.

Lemma layer_run (layer_weights : list (list R)) (q : list Op) :
  layer layer_weights q
  = if layer_accepts layer_weights
    then Some (tt, q ++ layer_gates layer_weights)
    else None.
Proof.
  unfold layer, layer_accepts. cbn [seq for_each forallb]. unfold bind.
  rewrite rot_on_run.
  destruct (row_ok (nth_error layer_weights 0)); [|reflexivity].
  rewrite rot_on_run.
  destruct (row_ok (nth_error layer_weights 1)); [|reflexivity].
  rewrite rot_on_run.
  destruct (row_ok (nth_error layer_weights 2)); [|reflexivity].
  rewrite rot_on_run.
  destruct (row_ok (nth_error layer_weights 3)); [|reflexivity].
  unfold queue, ret. cbn [andb fst snd]. unfold layer_gates.
  rewrite <- !app_assoc. reflexivity.
Qed.

Lemma layers_run (weights : list (list (list R))) (q : list Op) :
  for_each weights layer q
  = if forallb layer_accepts weights
    then Some (tt, q ++ flat_map layer_gates weights)
    else None.
Proof.
  revert q. induction weights as [|lw weights IH]; intros q.
  - simpl. rewrite app_nil_r. reflexivity.
  - cbn [for_each forallb flat_map]. unfold bind. rewrite layer_run.
    destruct (layer_accepts lw); [|reflexivity].
    rewrite IH. cbn [andb].
    destruct (forallb layer_accepts weights); [|reflexivity].
    rewrite <- app_assoc. reflexivity.
Qed.

Lemma circuit_none_iff
    (weights : list (list (list R))) (x : list Z) :
  circuit weights x = None
  <-> forallb layer_accepts weights = false \/ four_bits x = false.
Proof.
  unfold circuit, qnode, tape_of, circuit_qfunc, state_preparation.
  unfold bind at 1. unfold queue at 1. cbn [app]. unfold bind.
  rewrite layers_run.
  destruct (forallb layer_accepts weights) eqn:Ew.
  - unfold ret, execute, num_wires. cbn [app execute_from].
    unfold apply_op at 1. cbn [valid_on length forallb distinct existsb
      Nat.ltb Nat.leb Nat.eqb negb orb andb].
    fold (four_bits x). rewrite !andb_true_r.
    destruct (four_bits x) eqn:Ex.
    + rewrite execute_from_valid by apply layer_gates_valid.
      cbn [measure Nat.ltb Nat.leb]. split; [discriminate|].
      intros [H | H]; discriminate.
    + split; auto.
  - split; auto.
Qed.

(** X14: [circuit(weights, x)] raises exactly when some layer of the
    weights lacks one of its rows 0 to 3 or has one that does not hold
    three angles, or when x is not a string of four bits; in every other
    case it returns a value. *)
Theorem circuit_raises_iff_malformed
    (weights : list (list (list R))) (x : list Z) :
  circuit weights x = None
  <-> forallb layer_accepts weights = false \/ four_bits x = false.
Proof. apply circuit_none_iff. Qed.

(** *** The training loop runs to its end on well-formed data *)

Lemma take_rows {A : Type} (a : list A) (index : list nat) (rows : list A) :
  take a index = Some rows ->
  Forall (fun row => In row a) rows /\ length rows = length index.
Proof.
  unfold take. intros E. apply comprehension_Forall2 in E.
  induction E as [|i row index rows Ei _ [IH Hl]].
  - split; [constructor | reflexivity].
  - split.
    + constructor; [apply (nth_error_In _ _ Ei) | exact IH].
    + simpl. rewrite Hl. reflexivity.
Qed.

Lemma cost_total (L : nat) (weights : list (list (list R))) (bias : R)
    (X_batch : list (list Z)) (Y_batch : list R) :
  has_shape L weights = true ->
  Forall (fun x => four_bits x = true) X_batch ->
  length Y_batch = length X_batch ->
  X_batch <> [] ->
  exists v, cost weights bias X_batch Y_batch = Some v.
Proof.
  intros Hs HF Hl Hne.
  destruct (comprehension_total (variational_classifier weights bias) X_batch)
    as (outputs & Eo & Ho).
  { eapply Forall_impl; [|exact HF]. intros x Hx.
    apply (classifier_total L), Hx. exact Hs. }
  unfold cost. rewrite Eo.
  rewrite square_loss_equal_length.
  - eexists. reflexivity.
  - congruence.
  - intros E. rewrite E in Hl. destruct X_batch; [congruence | discriminate].
Qed.

Section TrainingCompletes.

Context {Opt G : Type} `{Optimizer Opt} `{RandomState G}.

Variable L : nat.

(** what the loop needs of the two library objects: when the objective
    returns a value on all parameters of the shape of the current ones,
    the optimizer returns parameters of that shape; and the generator
    returns an index inside a non-empty range *)
Hypothesis step_keeps_shape :
  forall (o : Opt) (f : list (list (list R)) -> R -> option R)
         (w : list (list (list R))) (b : R),
    has_shape L w = true ->
    (forall (w' : list (list (list R))) (b' : R),
        has_shape L w' = true -> exists v, f w' b' = Some v) ->
    exists w' b' o', step o f w b = Some (w', b', o')
                     /\ has_shape L w' = true.

Hypothesis randint_in_range :
  forall (lo hi : nat) (g : G),
    (lo < hi)%nat ->
    exists i g', randint lo hi g = Some (i, g') /\ (lo <= i < hi)%nat.

Lemma randint_array_total (lo hi size : nat) (g : G) :
  (lo < hi)%nat ->
  exists index g',
    randint_array lo hi size g = Some (index, g')
    /\ Forall (fun i => (lo <= i < hi)%nat) index.
Proof.
  intros Hlt. revert g. induction size as [|k IH]; intros g; simpl.
  - exists [], g. auto.
  - destruct (randint_in_range lo hi g Hlt) as (i & g1 & E & Hi). rewrite E.
    destruct (IH g1) as (rest & g2 & Er & Hr). rewrite Er.
    exists (i :: rest), g2. auto.
Qed.

Lemma take_total {A : Type} (a : list A) (index : list nat) :
  Forall (fun i => (i < length a)%nat) index ->
  exists rows, take a index = Some rows.
Proof.
  intros F. unfold take.
  destruct (comprehension_total (nth_error a) index) as (rows & E & _).
  - eapply Forall_impl; [|exact F]. intros i Hi.
    destruct (nth_error a i) eqn:En; [eexists; reflexivity|].
    apply nth_error_None in En. cbv beta in Hi. lia.
  - exists rows. exact E.
Qed.

Lemma report_number (it : nat) (st : TrainState Opt G) (line : nat * R * R) :
  report it st = Some line -> fst (fst line) = (it + 1)%nat.
Proof.
  unfold report.
  destruct (comprehension _ (X st)); [|discriminate].
  destruct (cost _ _ _ _); [|discriminate].
  destruct (accuracy _ _); [|discriminate].
  intros E. injection E as <-. reflexivity.
Qed.

(** the objective handed to the optimizer, the cost on a batch drawn
    from the training set, returns a value on all parameters of shape
    (L, 4, 3) *)
Lemma batch_cost_total (st : TrainState Opt G) (batch_index : list nat)
    (X_batch : list (list Z)) (Y_batch : list R) :
  forallb four_bits (X st) = true ->
  batch_index <> [] ->
  take (X st) batch_index = Some X_batch ->
  take (Y st) batch_index = Some Y_batch ->
  forall (w' : list (list (list R))) (b' : R),
    has_shape L w' = true -> exists v, cost w' b' X_batch Y_batch = Some v.
Proof.
  intros HX Hne EX EY w' b' Hs'.
  destruct (take_rows _ _ _ EX) as [HinX HlX].
  destruct (take_rows _ _ _ EY) as [_ HlY].
  apply (cost_total L); [exact Hs' | | congruence |].
  - eapply Forall_impl; [|exact HinX]. intros x Hin.
    apply (proj1 (forallb_forall four_bits (X st)) HX x Hin).
  - intros E. rewrite E in HlX. destruct batch_index; [congruence | discriminate].
Qed.

Lemma iteration_completes (it : nat) (st : TrainState Opt G) :
  well_formed L st ->
  exists st' line,
    iteration it st = Completed st'
    /\ well_formed L st'
    /\ batch_size st' = batch_size st
    /\ printed st' = printed st ++ [line]
    /\ fst (fst line) = (it + 1)%nat.
Proof.
  intros (Hs & HX & HY & Hne & Hb). unfold iteration.
  assert (Hlen : (0 < length (X st))%nat).
  { destruct (X st); [congruence | simpl; lia]. }
  destruct (randint_array_total 0 (length (X st)) (batch_size st) (rng st) Hlen)
    as (batch_index & g & Ei & Hi).
  rewrite Ei.
  assert (Hbi : batch_index <> []).
  { intros E. apply randint_array_length in Ei. rewrite E in Ei.
    simpl in Ei. lia. }
  assert (HiX : Forall (fun i => (i < length (X st))%nat) batch_index).
  { eapply Forall_impl; [|exact Hi]. intros i Hr. cbv beta in Hr. lia. }
  destruct (take_total (X st) batch_index HiX) as (X_batch & EX).
  assert (HiY : Forall (fun i => (i < length (Y st))%nat) batch_index).
  { rewrite HY. exact HiX. }
  destruct (take_total (Y st) batch_index HiY) as (Y_batch & EY).
  rewrite EX, EY.
  destruct (step_keeps_shape (opt st)
              (fun w b => cost w b X_batch Y_batch) (weights st) (bias st) Hs
              (batch_cost_total st batch_index X_batch Y_batch HX Hbi EX EY))
    as (w' & b' & o' & Es & Hs').
  rewrite Es.
  destruct (report_total it L
              (mkTrain w' b' (X st) (Y st) (batch_size st) o' g (printed st)))
    as [line El]; try assumption.
  rewrite El. eexists _, line. split; [reflexivity|].
  split; [repeat split; assumption|].
  split; [reflexivity|]. split; [reflexivity|].
  apply (report_number _ _ _ El).
Qed.

Lemma run_completes (k it : nat) (st : TrainState Opt G) :
  well_formed L st ->
  exists st' lines,
    run k it st = Completed st'
    /\ well_formed L st'
    /\ batch_size st' = batch_size st
    /\ printed st' = printed st ++ lines
    /\ map (fun line => fst (fst line)) lines = seq (it + 1) k.
Proof.
  revert it st. induction k as [|k IH]; intros it st Hw.
  - exists st, []. simpl. rewrite app_nil_r. auto.
  - destruct (iteration_completes it st Hw) as (st1 & line & E1 & Hw1 & Hb1 & Hp1 & Hn1).
    destruct (IH (S it) st1 Hw1) as (st' & lines & E & Hw' & Hb' & Hp' & Hn').
    exists st', (line :: lines). cbn [run]. rewrite E1, E.
    split; [reflexivity|]. split; [exact Hw'|].
    split; [congruence|]. split.
    + rewrite Hp', Hp1, <- app_assoc. reflexivity.
    + cbn [map seq]. rewrite Hn1, Hn'. reflexivity.
Qed.

End TrainingCompletes.

(** X15: with weights of shape (L, 4, 3), a non-empty training set of
    4-bit inputs and as many labels, an optimizer whose step returns
    parameters of the shape it is given whenever its objective returns a
    value on all parameters of that shape, and a generator that returns
    indices inside the range asked for, the training loop never raises:
    the cost on each batch is such an objective, all sixty iterations
    complete, printing one line each, numbered 1 to 60 in order, and the
    final weights still have shape (L, 4, 3). *)
Theorem training_loop_completes
    {Opt G : Type} `{Optimizer Opt} `{RandomState G} (L : nat)
    (weights_init : list (list (list R))) (bias_init : R)
    (X0 : list (list Z)) (Y0 : list R) (opt0 : Opt) (g0 : G) :
  (forall (o : Opt) (f : list (list (list R)) -> R -> option R)
          (w : list (list (list R))) (b : R),
      has_shape L w = true ->
      (forall (w' : list (list (list R))) (b' : R),
          has_shape L w' = true -> exists v, f w' b' = Some v) ->
      exists w' b' o', step o f w b = Some (w', b', o')
                       /\ has_shape L w' = true) ->
  (forall (lo hi : nat) (g : G),
      (lo < hi)%nat ->
      exists i g', randint lo hi g = Some (i, g') /\ (lo <= i < hi)%nat) ->
  has_shape L weights_init = true ->
  forallb four_bits X0 = true ->
  length Y0 = length X0 ->
  X0 <> [] ->
  exists st' : TrainState Opt G,
    training_loop weights_init bias_init X0 Y0 opt0 g0 = Completed st'
    /\ map (fun line => fst (fst line)) (printed st') = seq 1 60
    /\ has_shape L (weights st') = true.
Proof.
  intros Hstep Hrand Hs HX HY Hne. unfold training_loop.
  destruct (run_completes L Hstep Hrand 60 0
              (mkTrain weights_init bias_init X0 Y0 5 opt0 g0 []))
    as (st' & lines & E & Hw & _ & Hp & Hn).
  { repeat split; try assumption. simpl. lia. }
  exists st'. split; [exact E|]. split.
  - rewrite Hp. exact Hn.
  - apply Hw.
Qed.

Lemma replay_randint_in_range (lo hi : nat) (g : replay) :
  (lo < hi)%nat ->
  exists i g', randint lo hi g = Some (i, g') /\ (lo <= i < hi)%nat.
Proof.
  intros Hlt. cbn [randint replay_RandomState]. unfold replay_randint.
  rewrite (proj2 (Nat.ltb_lt lo hi) Hlt).
  eexists _, _. split; [reflexivity|].
  pose proof (Nat.mod_upper_bound (g 0%nat) (hi - lo)). lia.
Qed.

Lemma probing_step_keeps_shape (L : nat) (o : nat)
    (f : list (list (list R)) -> R -> option R)
    (w : list (list (list R))) (b : R) :
  has_shape L w = true ->
  (forall (w' : list (list (list R))) (b' : R),
      has_shape L w' = true -> exists v, f w' b' = Some v) ->
  exists w' b' o', step o f w b = Some (w', b', o')
                   /\ has_shape L w' = true.
Proof.
  intros Hs Hf. destruct (Hf w b Hs) as [v Ev].
  exists w, b, (S o). cbn [step probing_Optimizer]. rewrite Ev.
  split; [reflexivity | exact Hs].
Qed.

Lemma training_loop_completes_witness :
  exists st' : TrainState nat replay,
    training_loop [[[0; 0; 0]; [0; 0; 0]; [0; 0; 0]; [0; 0; 0]]] 0
                  [[0; 0; 0; 1]; [0; 1; 0; 1]]%Z [1; -1] 0%nat low_then_high
    = Completed st'
    /\ map (fun line => fst (fst line)) (printed st') = seq 1 60
    /\ has_shape 1 (weights st') = true.
Proof.
  apply (training_loop_completes 1).
  - apply probing_step_keeps_shape.
  - apply replay_randint_in_range.
  - reflexivity.
  - reflexivity.
  - reflexivity.
  - discriminate.
Defined.

(** *** CNOT on basis states, and an entangled state *)

Lemma pos_repr_length (p : positive) (acc : String.string) :
  String.length (pos_repr p acc) = (Pos.size_nat p + String.length acc)%nat.
Proof.
  revert acc. induction p as [p IH | p IH |]; intros acc; simpl;
    rewrite ?IH; simpl; lia.
Qed.

Lemma ints_of_length (text : String.string) :
  length (ints_of text) = String.length text.
Proof.
  unfold ints_of. rewrite length_map.
  induction text as [|ch text IH]; simpl; [|rewrite IH]; reflexivity.
Qed.

Lemma binary_repr_long (p : positive) :
  (3 <= Pos.size_nat p)%nat ->
  (3 <= length (ints_of (binary_repr (Npos p) 2)))%nat.
Proof.
  intros Hs. rewrite ints_of_length. unfold binary_repr.
  pose proof (pos_repr_length p String.EmptyString) as El. simpl in El.
  replace (2 - String.length (pos_repr p String.EmptyString))%nat
    with 0%nat by lia.
  simpl. lia.
Qed.

Lemma apply_cnot_long (basis_id : N) :
  (3 <= length (ints_of (binary_repr basis_id 2)))%nat ->
  AllTiedUp.apply_cnot basis_id = None.
Proof.
  intros Hl. unfold AllTiedUp.apply_cnot, qnode, tape_of,
    AllTiedUp.apply_cnot_qfunc, AllTiedUp.num_wires, bind, queue, ret.
  cbn [app]. unfold execute. cbn [execute_from]. unfold apply_op at 1.
  cbn [valid_on].
  destruct (length (ints_of (binary_repr basis_id 2)) =? length [0; 1])%nat
    eqn:E; [|reflexivity].
  apply Nat.eqb_eq in E. simpl in E. lia.
Qed.

(** X6: for [basis_id] 0, 1, 2 and 3, [apply_cnot] returns the basis
    state that [cnot_truth_table] gives for the two-bit label of
    [basis_id]; for any larger [basis_id] two digits are not enough and
    the call raises. *)
Theorem apply_cnot_follows_truth_table (basis_id : N) :
  ((basis_id < 4)%N ->
   exists out : String.string,
     lookup (binary_repr basis_id 2) AllTiedUp.cnot_truth_table = Some out
     /\ AllTiedUp.apply_cnot basis_id
        = Some (amplitudes (ket 2 (bits_of out))))
  /\ ((4 <= basis_id)%N -> AllTiedUp.apply_cnot basis_id = None).
Proof.
  split.
  - intros Hlt.
    destruct basis_id as [|[[p|p|]|[p|p|]|]]; try lia;
      (eexists; split; [reflexivity|]);
      unfold AllTiedUp.apply_cnot; amplitudes_eq.
  - intros Hge. apply apply_cnot_long.
    destruct basis_id as [|p]; [lia|].
    apply binary_repr_long.
    destruct p as [[p|p|]|[p|p|]|]; try (exfalso; lia);
      cbn [Pos.size_nat];
      assert (1 <= Pos.size_nat p)%nat by (destruct p; simpl; lia); lia.
Qed.

Lemma apply_cnot_follows_truth_table_witness :
  exists out : String.string,
    lookup (binary_repr 2 2) AllTiedUp.cnot_truth_table = Some out
    /\ AllTiedUp.apply_cnot 2 = Some (amplitudes (ket 2 (bits_of out))).
Proof.
  apply (proj1 (apply_cnot_follows_truth_table 2)). reflexivity.
Defined.

Lemma Cnorm2_mul (a b : C) : Cnorm2 (Cmul a b) = Cnorm2 a * Cnorm2 b.
Proof. unfold Cnorm2, Cmul; simpl. ring. Qed.

Lemma Cnorm2_zero (a : C) : Cnorm2 a = 0 -> a = C0.
Proof.
  intros E. destruct (Req_dec_T (fst a) 0) as [Ex | Nx].
  - destruct (Req_dec_T (snd a) 0) as [Ey | Ny].
    + destruct a. simpl in *. subst. reflexivity.
    + unfold Cnorm2 in E. nra.
  - unfold Cnorm2 in E. nra.
Qed.

Lemma Cmul_zero (a b : C) : Cmul a b = C0 -> a = C0 \/ b = C0.
Proof.
  intros E. apply (f_equal Cnorm2) in E. rewrite Cnorm2_mul in E.
  replace (Cnorm2 C0) with 0 in E by (unfold Cnorm2, C0; simpl; ring).
  apply Rmult_integral in E. destruct E as [E | E];
    [left | right]; apply Cnorm2_zero, E.
Qed.

Lemma inv_sqrt2_pos : 0 < 1 / sqrt 2.
Proof.
  unfold Rdiv. rewrite Rmult_1_l. apply Rinv_0_lt_compat, sqrt_lt_R0. lra.
Qed.

(** X7: the state [apply_h_cnot] returns is entangled, as the notebook's
    [state_status] says: it is (|00> + |11>)/sqrt 2, and no pair of
    one-wire states has it as its product. *)
Theorem apply_h_cnot_is_entangled :
  exists v : list C,
    AllTiedUp.apply_h_cnot = Some v
    /\ v = [RtoC (1 / sqrt 2); C0; C0; RtoC (1 / sqrt 2)]
    /\ ~ is_product v
    /\ AllTiedUp.state_status = "entangled"%string.
Proof.
  exists [RtoC (1 / sqrt 2); C0; C0; RtoC (1 / sqrt 2)].
  split; [unfold AllTiedUp.apply_h_cnot; amplitudes_eq|].
  split; [reflexivity|]. split; [|reflexivity].
  intros (a & b & c & d & E).
  pose proof (f_equal (fun l => nth 0 l C0) E) as Eac.
  pose proof (f_equal (fun l => nth 1 l C0) E) as Ead.
  pose proof (f_equal (fun l => nth 3 l C0) E) as Ebd.
  cbn [nth] in Eac, Ead, Ebd. clear E.
  pose proof inv_sqrt2_pos as Hr.
  symmetry in Ead. apply Cmul_zero in Ead. destruct Ead as [-> | ->].
  - unfold Cmul, RtoC, C0 in Eac; simpl in Eac. injection Eac as Eac _. lra.
  - unfold Cmul, RtoC, C0 in Ebd; simpl in Ebd. injection Ebd as Ebd _. lra.
Qed.

(** *** The multiplexer of Codercise 1.14.2 *)

Lemma quarter_turn_values :
  cos (- (- PI / 2) / 2) = / sqrt 2 /\ sin (- (- PI / 2) / 2) = / sqrt 2
  /\ cos (- PI / 2 / 2) = / sqrt 2 /\ sin (- PI / 2 / 2) = - / sqrt 2
  /\ cos (- (PI / 2) / 2) = / sqrt 2 /\ sin (- (PI / 2) / 2) = - / sqrt 2
  /\ cos (PI / 2 / 2) = / sqrt 2 /\ sin (PI / 2 / 2) = / sqrt 2.
Proof.
  replace (- (- PI / 2) / 2) with (PI / 4) by field.
  replace (- PI / 2 / 2) with (- (PI / 4)) by field.
  replace (- (PI / 2) / 2) with (- (PI / 4)) by field.
  replace (PI / 2 / 2) with (PI / 4) by field.
  rewrite cos_neg, sin_neg, cos_PI4, sin_PI4.
  unfold Rdiv. rewrite Rmult_1_l. repeat split; reflexivity.
Qed.

(** equalities of amplitudes that hold because (1/sqrt 2)^2 = 1/2 *)
Ltac sqrt2_eq :=
  let r := fresh "r" in
  let Hr := fresh "Hr" in
  pose proof inv_sqrt2_sqr as Hr;
  unfold Cadd, Cmul, Copp, Cconj, RtoC, C0, C1, Rdiv; simpl;
  revert Hr; generalize (/ sqrt 2); intros r Hr;
  assert (2 * (r * r) = 1) by lra; clear Hr;
  repeat match goal with
         | |- Some _ = Some _ => f_equal
         | |- _ :: _ = _ :: _ => f_equal
         | |- (_, _) = (_, _) => f_equal
         | |- @eq R _ _ => nsatz
         end.

Lemma xexecute_from_valid {n : nat} (ops : list XOp) (s : St n) :
  forallb (xvalid n) ops = true ->
  xexecute_from ops s = Some (xevolve ops s).
Proof.
  revert s. induction ops as [|x ops IH]; intros s Hv; simpl in *.
  - reflexivity.
  - apply andb_true_iff in Hv as [Hx Hv]. rewrite Hx. apply IH, Hv.
Qed.

Lemma wire2_on_controls (U : Mat2) (c0 c1 : bool) (v : St 1) :
  @apply1 3 U 2 (on_controls c0 c1 v) = on_controls c0 c1 (apply1 U 0 v).
Proof.
  pose proof (@apply1_vzero 1 U 0) as Ez.
  destruct c0, c1; unfold on_controls; cbv zeta;
    change (@apply1 3 U 2) with
      (fun s : St 3 =>
         ((@apply1 1 U 0 (fst (fst s)), @apply1 1 U 0 (snd (fst s))),
          (@apply1 1 U 0 (fst (snd s)), @apply1 1 U 0 (snd (snd s)))));
    cbn beta; cbn [fst snd]; rewrite !Ez; reflexivity.
Qed.

Lemma mcx_on_controls (v0 v1 : Z) (c0 c1 : bool) (v : St 1) :
  xaction (MultiControlledX [0; 1]%nat 2 [v0; v1]) (on_controls c0 c1 v)
  = on_controls c0 c1
      (if Bool.eqb c0 (Z.eqb v0 1) && Bool.eqb c1 (Z.eqb v1 1)
       then apply1 X_mat 0 v else v).
Proof.
  unfold xaction, unitary_of. cbn [combine ctrl_on].
  rewrite wire2_on_controls.
  destruct (Z.eqb v0 1), (Z.eqb v1 1), c0, c1; reflexivity.
Qed.

Lemma flip_wire0_on_controls (c1 : bool) (v : St 1) :
  xaction (Gate (PauliX 0)) (on_controls false c1 v) = on_controls true c1 v.
Proof.
  cbn [xaction action]. destruct c1; unfold on_controls; cbv zeta;
    rewrite (@apply1_X_0 2); reflexivity.
Qed.

Lemma flip_wire1_on_controls (c0 : bool) (v : St 1) :
  xaction (Gate (PauliX 1)) (on_controls c0 false v) = on_controls c0 true v.
Proof.
  cbn [xaction action]. destruct c0; unfold on_controls; cbv zeta;
    change (@apply1 3 X_mat 1) with
      (fun s : St 3 => (@apply1 2 X_mat 0 (fst s), @apply1 2 X_mat 0 (snd s)));
    cbn beta; cbn [fst snd]; rewrite !(@apply1_X_0 1); reflexivity.
Qed.

Lemma minus_state_prepared :
  apply1 H_mat 0 (apply1 X_mat 0 (ket0 1)) = minus_state.
Proof.
  unfold minus_state. cbn [ket0 vzero].
  rewrite (@apply1_X_0 0). cbn [apply1 fst snd]. unfold lin2. cbn [vadd vscale].
  unfold H_mat. cbn [m00 m01 m10 m11]. sqrt2_eq.
Qed.

Lemma H_twice (v : St 1) : apply1 H_mat 0 (apply1 H_mat 0 v) = v.
Proof.
  destruct v as [[a1 a2] [b1 b2]]. cbn [apply1 fst snd]. unfold lin2.
  cbn [vadd vscale]. unfold H_mat. cbn [m00 m01 m10 m11]. sqrt2_eq.
Qed.

Lemma H_X_H (v : St 1) :
  apply1 H_mat 0 (apply1 X_mat 0 (apply1 H_mat 0 v)) = apply1 Z_mat 0 v.
Proof.
  destruct v as [[a1 a2] [b1 b2]]. cbn [apply1 fst snd]. unfold lin2.
  cbn [vadd vscale]. unfold H_mat, X_mat, Z_mat. cbn [m00 m01 m10 m11].
  sqrt2_eq.
Qed.

Lemma RZ_back_and_forth (v : St 1) :
  apply1 (RZ_mat (PI / 2)) 0 (apply1 (RZ_mat (- PI / 2)) 0 v) = v.
Proof.
  destruct quarter_turn_values as (c1 & s1 & c2 & s2 & c3 & s3 & c4 & s4).
  destruct v as [[a1 a2] [b1 b2]]. cbn [apply1 fst snd]. unfold lin2.
  cbn [vadd vscale]. unfold RZ_mat, Cexp. cbn [m00 m01 m10 m11].
  rewrite c1, s1, c2, s2, c3, s3, c4, s4. sqrt2_eq.
Qed.

Lemma RZ_X_RZ (v : St 1) :
  apply1 (RZ_mat (PI / 2)) 0
    (apply1 X_mat 0 (apply1 (RZ_mat (- PI / 2)) 0 v))
  = apply1 Y_mat 0 v.
Proof.
  destruct quarter_turn_values as (c1 & s1 & c2 & s2 & c3 & s3 & c4 & s4).
  destruct v as [[a1 a2] [b1 b2]]. cbn [apply1 fst snd]. unfold lin2.
  cbn [vadd vscale]. unfold RZ_mat, X_mat, Y_mat, Cexp. cbn [m00 m01 m10 m11].
  rewrite c1, s1, c2, s2, c3, s3, c4, s4. sqrt2_eq.
Qed.

Lemma I_mat_is_identity (v : St 1) : apply1 I_mat 0 v = v.
Proof.
  destruct v as [[a1 a2] [b1 b2]]. cbn [apply1 fst snd]. unfold lin2.
  cbn [vadd vscale]. unfold I_mat. cbn [m00 m01 m10 m11]. sqrt2_eq.
Qed.

Lemma apply_control_sequence_tape (s0 s1 : Z) (rest : list Z) :
  MultiQubitGateChallenge.apply_control_sequence_qfunc (s0 :: s1 :: rest) []
  = Some (state_vector,
          (if Z.eqb s0 1 then [Gate (PauliX 0)] else [])
          ++ (if Z.eqb s1 1 then [Gate (PauliX 1)] else [])
          ++ [Gate (PauliX 2); Gate (Hadamard 2);
              MultiControlledX [0; 1]%nat 2 [0; 1]%Z;
              Gate (Hadamard 2);
              MultiControlledX [0; 1]%nat 2 [1; 0]%Z;
              Gate (Hadamard 2);
              Gate (RZ (- PI / 2) 2);
              MultiControlledX [0; 1]%nat 2 [1; 1]%Z;
              Gate (RZ (PI / 2) 2)]).
Proof.
  unfold MultiQubitGateChallenge.apply_control_sequence_qfunc, xindex.
  cbn [nth_error]. unfold xbind, xret.
  destruct (Z.eqb s0 1), (Z.eqb s1 1); reflexivity.
Qed.

Lemma multiplexer_body_action (c0 c1 : bool) :
  xevolve [Gate (PauliX 2); Gate (Hadamard 2);
           MultiControlledX [0; 1]%nat 2 [0; 1]%Z;
           Gate (Hadamard 2);
           MultiControlledX [0; 1]%nat 2 [1; 0]%Z;
           Gate (Hadamard 2);
           Gate (RZ (- PI / 2) 2);
           MultiControlledX [0; 1]%nat 2 [1; 1]%Z;
           Gate (RZ (PI / 2) 2)]
          (on_controls c0 c1 (ket0 1))
  = on_controls c0 c1 (apply1 (multiplexed c0 c1) 0 minus_state).
Proof.
  unfold xevolve. cbn [fold_left].
  change (xaction (Gate (PauliX 2))) with (@apply1 3 X_mat 2).
  change (xaction (Gate (Hadamard 2))) with (@apply1 3 H_mat 2).
  change (xaction (Gate (RZ (- PI / 2) 2))) with (@apply1 3 (RZ_mat (- PI / 2)) 2).
  change (xaction (Gate (RZ (PI / 2) 2))) with (@apply1 3 (RZ_mat (PI / 2)) 2).
  repeat (rewrite ?wire2_on_controls, ?mcx_on_controls).
  rewrite minus_state_prepared. f_equal.
  change (Z.eqb 0 1) with false. change (Z.eqb 1 1) with true.
  destruct c0, c1; cbn [Bool.eqb andb multiplexed].
  - rewrite H_twice. apply RZ_X_RZ.
  - rewrite RZ_back_and_forth. apply H_X_H.
  - rewrite H_twice, RZ_back_and_forth. reflexivity.
  - rewrite H_twice, RZ_back_and_forth, I_mat_is_identity. reflexivity.
Qed.

(** X8: [apply_control_sequence] is the multiplexer its comments
    describe.  With the first two wires in the basis state given by
    [state] (an entry other than 1 counts as 0) and the third in |->, it
    leaves the first two wires as they are and applies to the third
    nothing for 00, X for 01, Z for 10 and Y for 11; a [state] with fewer
    than two entries raises. *)
Theorem apply_control_sequence_is_a_multiplexer (state : list Z) :
  (forall (s0 s1 : Z) (rest : list Z),
      state = s0 :: s1 :: rest ->
      MultiQubitGateChallenge.apply_control_sequence state
      = Some (amplitudes
                (on_controls (Z.eqb s0 1) (Z.eqb s1 1)
                   (apply1 (multiplexed (Z.eqb s0 1) (Z.eqb s1 1)) 0
                           minus_state))))
  /\ ((length state < 2)%nat ->
      MultiQubitGateChallenge.apply_control_sequence state = None).
Proof.
  split.
  - intros s0 s1 rest ->.
    unfold MultiQubitGateChallenge.apply_control_sequence, xqnode.
    rewrite apply_control_sequence_tape.
    rewrite xexecute_from_valid
      by (destruct (Z.eqb s0 1), (Z.eqb s1 1); reflexivity).
    cbn [measure state_vector]. f_equal. f_equal.
    unfold xevolve. rewrite !fold_left_app.
    change (ket0 3) with (on_controls false false (ket0 1)).
    fold (@xevolve 3).
    destruct (Z.eqb s0 1), (Z.eqb s1 1); cbn [fold_left];
      rewrite ?flip_wire0_on_controls, ?flip_wire1_on_controls;
      apply multiplexer_body_action.
  - intros Hl. destruct state as [|s0 [|s1 rest]]; simpl in Hl; try lia.
    + reflexivity.
    + unfold MultiQubitGateChallenge.apply_control_sequence, xqnode,
        MultiQubitGateChallenge.apply_control_sequence_qfunc, xindex.
      cbn [nth_error]. unfold xbind, xret, xraise, xqueue.
      destruct (Z.eqb s0 1); reflexivity.
Qed.

Lemma apply_control_sequence_is_a_multiplexer_witness :
  MultiQubitGateChallenge.apply_control_sequence [0; 1]%Z
  = Some (amplitudes (on_controls false true (apply1 X_mat 0 minus_state))).
Proof.
  apply (proj1 (apply_control_sequence_is_a_multiplexer [0; 1]%Z) 0%Z 1%Z []).
  reflexivity.
Defined.

(** *** Measuring in the Y basis *)

(** equalities of reals that hold because (1/sqrt 2)^2 = 1/2 and
    (sqrt 3)^2 = 3 *)
Ltac surd_eq :=
  let r := fresh "r" in
  let s := fresh "s" in
  let h := fresh "h" in
  let q := fresh "q" in
  let Hr := fresh "Hr" in
  let Hs := fresh "Hs" in
  let Hh := fresh "Hh" in
  let Hq := fresh "Hq" in
  pose proof inv_sqrt2_sqr as Hr;
  assert (Hs : sqrt 3 * sqrt 3 = 3) by (apply sqrt_sqrt; lra);
  assert (Hh : 2 * / 2 = 1) by lra;
  assert (Hq : 4 * / 4 = 1) by lra;
  unfold Cnorm2, Cadd, Cmul, Copp, Cconj, RtoC, C0, C1, Rdiv; simpl;
  revert Hr Hs Hh Hq;
  generalize (/ sqrt 2); generalize (sqrt 3);
  generalize (/ 2); generalize (/ 4);
  intros q h s r Hr Hs Hh Hq;
  repeat match goal with
         | |- Some _ = Some _ => f_equal
         | |- _ :: _ = _ :: _ => f_equal
         | |- (_, _) = (_, _) => f_equal
         | |- @eq R _ _ => nsatz
         end.

Lemma xevolve_app {n : nat} (ops ops' : list XOp) (s : St n) :
  xevolve (ops ++ ops') s = xevolve ops' (xevolve ops s).
Proof. unfold xevolve. apply fold_left_app. Qed.

Lemma third_turn_values :
  cos (2 * PI / 3 / 2) = / 2 /\ sin (2 * PI / 3 / 2) = sqrt 3 * / 2.
Proof.
  replace (2 * PI / 3 / 2) with (PI / 3) by field.
  rewrite cos_PI3, sin_PI3. split; unfold Rdiv; ring.
Qed.

Lemma adjoint_y_basis_rotation_tape (q : list XOp) :
  adjoint Measurement.y_basis_rotation q
  = Some (tt, q ++ [Adjoint (S_gate 0); Adjoint (Gate (Hadamard 0))]).
Proof. reflexivity. Qed.

Lemma y_basis_probabilities (a b : C) :
  map Cnorm2
    (amplitudes
       (@xevolve 1 [Adjoint (S_gate 0); Adjoint (Gate (Hadamard 0))] (a, b)))
  = [Cnorm2 (Cadd a (Cmul (0, -1) b)) / 2;
     Cnorm2 (Cadd a (Cmul (0, 1) b)) / 2].
Proof.
  destruct a as [a1 a2], b as [b1 b2].
  unfold xevolve. cbn [fold_left xaction unitary_of ctrl_on apply1 fst snd
    amplitudes map app].
  unfold lin2. cbn [vadd vscale]. unfold dagger, S_mat, H_mat.
  cbn [m00 m01 m10 m11]. surd_eq.
Qed.

Lemma y_basis_round_trip (v : St 1) :
  xevolve [Gate (Hadamard 0); S_gate 0;
           Adjoint (S_gate 0); Adjoint (Gate (Hadamard 0))] v
  = v.
Proof.
  destruct v as [[a1 a2] [b1 b2]].
  unfold xevolve. cbn [fold_left xaction action unitary_of ctrl_on apply1
    fst snd].
  unfold lin2. cbn [vadd vscale]. unfold dagger, S_mat, H_mat.
  cbn [m00 m01 m10 m11]. surd_eq.
Qed.

Lemma prepare_psi_state :
  @xevolve 1 [Gate (RY (2 * PI / 3) 0); Gate (RZ (PI / 2) 0)] (ket0 1)
  = (Cmul (Cexp (- (PI / 4))) (RtoC (1 / 2)),
     Cmul (Cexp (- (PI / 4))) (Cmul (0, 1) (RtoC (sqrt 3 / 2)))).
Proof.
  destruct quarter_turn_values as (_ & _ & _ & _ & c3 & s3 & c4 & s4).
  destruct third_turn_values as (c & s).
  unfold xevolve. cbn [fold_left xaction action apply1 fst snd ket0 vzero].
  unfold lin2. cbn [vadd vscale]. unfold RY_mat, RZ_mat, Cexp.
  cbn [m00 m01 m10 m11].
  rewrite cos_neg, sin_neg, cos_PI4, sin_PI4, c3, s3, c4, s4, c, s.
  surd_eq.
Qed.

(** X16: [measure_in_y_basis] measures in the Y basis.  The tape that
    [qml.adjoint(y_basis_rotation)] queues is the adjoint of S, then of
    Hadamard; it undoes [y_basis_rotation], and followed by
    [qml.probs] it turns any one-wire state (a, b) into the
    probabilities |a - i b|^2 / 2 and |a + i b|^2 / 2 of the two Y
    eigenstates.  [prepare_psi] prepares (1/2)|0> + i (sqrt 3 / 2)|1> up
    to the phase exp(-i pi/4), and the function returns
    [(2 + sqrt 3)/4, (2 - sqrt 3)/4]. *)
Theorem measure_in_y_basis_probabilities :
  Measurement.measure_in_y_basis
  = Some [(2 + sqrt 3) / 4; (2 - sqrt 3) / 4]
  /\ (forall q : list XOp,
         adjoint Measurement.y_basis_rotation q
         = Some (tt, q ++ [Adjoint (S_gate 0); Adjoint (Gate (Hadamard 0))]))
  /\ (forall v : St 1,
         xevolve [Gate (Hadamard 0); S_gate 0;
                  Adjoint (S_gate 0); Adjoint (Gate (Hadamard 0))] v
         = v)
  /\ (forall a b : C,
         map Cnorm2
           (amplitudes
              (@xevolve 1 [Adjoint (S_gate 0); Adjoint (Gate (Hadamard 0))]
                        (a, b)))
         = [Cnorm2 (Cadd a (Cmul (0, -1) b)) / 2;
            Cnorm2 (Cadd a (Cmul (0, 1) b)) / 2])
  /\ @xevolve 1 [Gate (RY (2 * PI / 3) 0); Gate (RZ (PI / 2) 0)] (ket0 1)
     = (Cmul (Cexp (- (PI / 4))) (RtoC (1 / 2)),
        Cmul (Cexp (- (PI / 4))) (Cmul (0, 1) (RtoC (sqrt 3 / 2)))).
Proof.
  split; [|split; [apply adjoint_y_basis_rotation_tape|
           split; [apply y_basis_round_trip|
           split; [apply y_basis_probabilities | apply prepare_psi_state]]]].
  unfold Measurement.measure_in_y_basis, xqnode.
  replace (Measurement.measure_in_y_basis_qfunc [])
    with (Some (probs, [Gate (RY (2 * PI / 3) 0); Gate (RZ (PI / 2) 0);
                        Adjoint (S_gate 0); Adjoint (Gate (Hadamard 0))]))
    by reflexivity.
  rewrite xexecute_from_valid by reflexivity.
  cbn [measure]. f_equal.
  change [Gate (RY (2 * PI / 3) 0); Gate (RZ (PI / 2) 0);
          Adjoint (S_gate 0); Adjoint (Gate (Hadamard 0))]
    with ([Gate (RY (2 * PI / 3) 0); Gate (RZ (PI / 2) 0)]
          ++ [Adjoint (S_gate 0); Adjoint (Gate (Hadamard 0))]).
  rewrite xevolve_app, prepare_psi_state, y_basis_probabilities.
  unfold Cexp. rewrite cos_neg, sin_neg, cos_PI4, sin_PI4.
  surd_eq.
Qed.

(** *** The rotation of Prepare_Yourself.ipynb *)

(** X17: the [y_basis_rotation] of Prepare_Yourself.ipynb queues
    RX(pi/2) alone; it sends |0> to (|0> - i|1>)/sqrt 2 and |1> to
    (-i|0> + |1>)/sqrt 2. *)
Theorem prepare_yourself_y_basis_rotation :
  tape_of PrepareYourself.y_basis_rotation = Some (tt, [RX (PI / 2) 0])
  /\ @evolve 1 [RX (PI / 2) 0] (ket 1 [false])
     = (RtoC (1 / sqrt 2), Cmul (0, -1) (RtoC (1 / sqrt 2)))
  /\ @evolve 1 [RX (PI / 2) 0] (ket 1 [true])
     = (Cmul (0, -1) (RtoC (1 / sqrt 2)), RtoC (1 / sqrt 2)).
Proof.
  destruct quarter_turn_values as (_ & _ & _ & _ & _ & _ & c4 & s4).
  split; [reflexivity|].
  split; unfold evolve; cbn [fold_left action apply1 fst snd ket vzero];
    unfold lin2; cbn [vadd vscale]; unfold RX_mat; cbn [m00 m01 m10 m11];
    rewrite c4, s4; sqrt2_eq.
Qed.

(** *** The distributions of the three-wire circuits *)

Lemma CNOT_0_1 (a b c d : St 1) :
  @ctrl 3 X_mat 0 1 ((a, b), (c, d)) = ((a, b), (d, c)).
Proof.
  unfold ctrl. cbn [sel fst snd].
  change (@apply1 3 X_mat 1 (a, b, (c, d)))
    with (@apply1 2 X_mat 0 (a, b), @apply1 2 X_mat 0 (c, d)).
  cbn [snd]. rewrite (@apply1_X_0 1). reflexivity.
Qed.

Lemma CNOT_1_2 (a0 a1 b0 b1 c0 c1 d0 d1 : C) :
  @ctrl 3 X_mat 1 2 (((a0, a1), (b0, b1)), ((c0, c1), (d0, d1)))
  = (((a0, a1), (b1, b0)), ((c0, c1), (d1, d0))).
Proof.
  unfold ctrl.
  change (@apply1 3 X_mat 2 (a0, a1, (b0, b1), (c0, c1, (d0, d1))))
    with ((@apply1 1 X_mat 0 (a0, a1), @apply1 1 X_mat 0 (b0, b1)),
          (@apply1 1 X_mat 0 (c0, c1), @apply1 1 X_mat 0 (d0, d1))).
  rewrite !(@apply1_X_0 0). reflexivity.
Qed.

Lemma CNOT_2_0 (a0 a1 b0 b1 c0 c1 d0 d1 : C) :
  @ctrl 3 X_mat 2 0 (((a0, a1), (b0, b1)), ((c0, c1), (d0, d1)))
  = (((a0, c1), (b0, d1)), ((c0, a1), (d0, b1))).
Proof.
  unfold ctrl. rewrite (@apply1_X_0 2). reflexivity.
Qed.

Lemma vscale_vzero {n : nat} (c : C) : vscale c (vzero n) = vzero n.
Proof.
  induction n as [|n IH]; simpl.
  - unfold Cmul, C0; simpl. f_equal; ring.
  - rewrite IH. reflexivity.
Qed.

Lemma vadd_vzero_r {n : nat} (a : St n) : vadd a (vzero n) = a.
Proof.
  induction n as [|n IH]; simpl.
  - apply Cadd_0_r.
  - destruct a as [a1 a2]; simpl. rewrite !IH. reflexivity.
Qed.

Lemma vadd_vzero_l {n : nat} (a : St n) : vadd (vzero n) a = a.
Proof.
  induction n as [|n IH]; simpl.
  - apply Cadd_0_l.
  - destruct a as [a1 a2]; simpl. rewrite !IH. reflexivity.
Qed.

Lemma lin2_zero_r {n : nat} (x y : C) (a : St n) :
  lin2 x y a (vzero n) = vscale x a.
Proof. unfold lin2. rewrite vscale_vzero. apply vadd_vzero_r. Qed.

Lemma lin2_zero_l {n : nat} (x y : C) (b : St n) :
  lin2 x y (vzero n) b = vscale y b.
Proof. unfold lin2. rewrite vscale_vzero. apply vadd_vzero_l. Qed.

Lemma vscale_C0 {n : nat} (a : St n) : vscale C0 a = vzero n.
Proof.
  induction n as [|n IH]; simpl.
  - destruct a. unfold Cmul, C0; simpl. f_equal; ring.
  - destruct a as [a1 a2]; simpl. rewrite !IH. reflexivity.
Qed.

Lemma lin2_diag_l {n : nat} (x : C) (a b : St n) :
  lin2 x C0 a b = vscale x a.
Proof. unfold lin2. rewrite vscale_C0. apply vadd_vzero_r. Qed.

Lemma lin2_diag_r {n : nat} (y : C) (a b : St n) :
  lin2 C0 y a b = vscale y b.
Proof. unfold lin2. rewrite vscale_C0. apply vadd_vzero_l. Qed.

(** gates pushed through a state whose amplitudes are products *)
Ltac push_gates :=
  repeat (cbn [apply1 fst snd ket0 vscale ctrl sel];
          rewrite ?vscale_vzero, ?lin2_zero, ?lin2_zero_r, ?lin2_zero_l,
            ?lin2_diag_l, ?lin2_diag_r).

(** entry-wise equality of lists of reals: by [ring] where it holds
    identically, otherwise from the equations in the context *)
Ltac entries_eq :=
  unfold Cnorm2, Cadd, Cmul, Copp, Cconj, Cexp, RtoC, C0, C1;
  cbn [fst snd pow]; unfold Rdiv in *;
  repeat match goal with
         | |- Some _ = Some _ => f_equal
         | |- _ :: _ = _ :: _ => f_equal
         | |- (_, _) = (_, _) => f_equal
         | |- @eq R _ _ => first [ring | nsatz]
         end.

(** X18: for all angles, [my_circuit(theta, phi, omega)] returns
    [c_t c_p, 0, 0, s_t c_p, s_t s_p, 0, 0, c_t s_p], where c_t and s_t
    are cos^2 and sin^2 of theta/2 and c_p, s_p those of phi/2: the
    third angle has no effect on the probabilities. *)
Theorem my_circuit_distribution (theta phi omega : R) :
  QuantumCircuits.my_circuit theta phi omega
  = Some [cos (theta / 2) ^ 2 * cos (phi / 2) ^ 2; 0; 0;
          sin (theta / 2) ^ 2 * cos (phi / 2) ^ 2;
          sin (theta / 2) ^ 2 * sin (phi / 2) ^ 2; 0; 0;
          cos (theta / 2) ^ 2 * sin (phi / 2) ^ 2].
Proof.
  unfold QuantumCircuits.my_circuit, qnode.
  replace (tape_of (QuantumCircuits.my_circuit_qfunc theta phi omega))
    with (Some (probs, [RX theta 0; RY phi 1; RZ omega 2;
                        CNOT 0 1; CNOT 1 2; CNOT 2 0]))
    by reflexivity.
  unfold execute. rewrite execute_from_valid by reflexivity.
  unfold evolve. cbn [fold_left action].
  unfold RX_mat, RY_mat, RZ_mat.
  cbn [apply1 fst snd ket0 m00 m01 m10 m11].
  rewrite ?lin2_zero_r. cbn [vscale vzero fst snd].
  rewrite ?lin2_diag_l, ?lin2_diag_r. cbn [vscale fst snd].
  rewrite CNOT_0_1, CNOT_1_2, CNOT_2_0.
  cbn [measure amplitudes map app].
  unfold lin2. cbn [vadd vscale fst snd].
  pose proof (cos2_sin2 (- omega / 2)) as E.
  entries_eq.
Qed.

(** X19: for all angles, [controlled_rotations(theta, phi, omega)]
    returns [1/2, 0, 0, 0, c_t/2, 0, s_t c_p/2, s_t s_p/2], with c_t,
    s_t, c_p, s_p as above: the rotation about Z controlled by the last
    wire has no effect on the probabilities. *)
Theorem controlled_rotations_distribution (theta phi omega : R) :
  AllTiedUp.controlled_rotations theta phi omega
  = Some [1 / 2; 0; 0; 0;
          cos (theta / 2) ^ 2 / 2; 0;
          sin (theta / 2) ^ 2 * cos (phi / 2) ^ 2 / 2;
          sin (theta / 2) ^ 2 * sin (phi / 2) ^ 2 / 2].
Proof.
  unfold AllTiedUp.controlled_rotations, qnode.
  replace (tape_of (AllTiedUp.controlled_rotations_qfunc theta phi omega))
    with (Some (probs, [Hadamard 0; CRX theta 0 1; CRY phi 1 2;
                        CRZ omega 2 0]))
    by reflexivity.
  unfold execute. rewrite execute_from_valid by reflexivity.
  unfold evolve. cbn [fold_left action].
  unfold H_mat, RX_mat, RY_mat, RZ_mat, ctrl.
  cbn [apply1 sel fst snd ket0 m00 m01 m10 m11].
  rewrite ?lin2_zero_r. cbn [vscale vzero fst snd].
  rewrite ?lin2_diag_l, ?lin2_diag_r. cbn [vscale fst snd].
  cbn [measure amplitudes map app].
  unfold lin2. cbn [vadd vscale fst snd].
  pose proof (cos2_sin2 (- omega / 2)) as E1.
  pose proof (cos2_sin2 (omega / 2)) as E2.
  pose proof inv_sqrt2_sqr as Hr.
  assert (Hh : 2 * / 2 = 1) by lra.
  entries_eq.
Qed.

(** *** The cost on well-formed and on malformed data *)

Lemma comprehension_none {A B : Type} (f : A -> option B) (l : list A) (a : A) :
  In a l -> f a = None -> comprehension f l = None.
Proof.
  induction l as [|x l IH]; intros Hin Ea; simpl in *.
  - contradiction.
  - destruct Hin as [-> | Hin].
    + rewrite Ea. reflexivity.
    + destruct (f x); [|reflexivity]. rewrite (IH Hin Ea). reflexivity.
Qed.

(** X20: with weights of shape (L, 4, 3), [cost(weights, bias, X, Y)]
    returns a non-negative value when X is a non-empty list of 4-bit
    inputs and Y has as many labels, and raises as soon as one input of
    X is not a string of four bits. *)
Theorem cost_on_well_formed_and_malformed_inputs
    (L : nat) (weights : list (list (list R))) (bias : R)
    (X : list (list Z)) (Y : list R) :
  has_shape L weights = true ->
  (forallb four_bits X = true -> length Y = length X -> X <> [] ->
   exists v : R, cost weights bias X Y = Some v /\ 0 <= v)
  /\ (forallb four_bits X = false -> cost weights bias X Y = None).
Proof.
  intros Hs. split.
  - intros HX Hl Hne. unfold cost.
    destruct (comprehension_total (variational_classifier weights bias) X)
      as (outputs & Eo & Ho).
    { apply Forall_forall. intros x Hin.
      apply (classifier_total L); [exact Hs|].
      apply (proj1 (forallb_forall four_bits X) HX x Hin). }
    rewrite Eo.
    assert (HY : Y <> []).
    { intros E. rewrite E in Hl. destruct X; [congruence | discriminate]. }
    rewrite square_loss_equal_length by congruence.
    eexists. split; [reflexivity|].
    apply Rmult_le_pos; [apply sum_sq_diff_nonneg|].
    left. apply Rinv_0_lt_compat, lt_0_INR.
    destruct Y; [congruence | simpl; lia].
  - intros HX. unfold cost.
    assert (Hex : exists x, In x X /\ four_bits x = false).
    { clear -HX. induction X as [|x X IH]; simpl in HX; [discriminate|].
      destruct (four_bits x) eqn:Ex.
      - destruct (IH HX) as (y & Hin & Ey). exists y. simpl. auto.
      - exists x. simpl. auto. }
    destruct Hex as (x & Hin & Ex).
    rewrite (comprehension_none (variational_classifier weights bias) X x Hin).
    + reflexivity.
    + unfold variational_classifier.
      rewrite (proj2 (circuit_none_iff weights x)) by auto.
      reflexivity.
Qed.

Lemma cost_on_well_formed_and_malformed_inputs_witness :
  (exists v : R,
      cost [[[0; 0; 0]; [0; 0; 0]; [0; 0; 0]; [0; 0; 0]]] 0
           [[0; 0; 0; 1]; [0; 1; 0; 1]]%Z [1; -1] = Some v
      /\ 0 <= v)
  /\ cost [[[0; 0; 0]; [0; 0; 0]; [0; 0; 0]; [0; 0; 0]]] 0
          [[0; 0; 0; 1]; [0; 2; 0; 1]]%Z [1; -1] = None.
Proof.
  split.
  - apply (proj1 (cost_on_well_formed_and_malformed_inputs 1
                    [[[0; 0; 0]; [0; 0; 0]; [0; 0; 0]; [0; 0; 0]]] 0
                    [[0; 0; 0; 1]; [0; 1; 0; 1]]%Z [1; -1] eq_refl));
      [reflexivity | reflexivity | discriminate].
  - apply (proj2 (cost_on_well_formed_and_malformed_inputs 1
                    [[[0; 0; 0]; [0; 0; 0]; [0; 0; 0]; [0; 0; 0]]] 0
                    [[0; 0; 0; 1]; [0; 2; 0; 1]]%Z [1; -1] eq_refl)).
    reflexivity.
Defined.
